(** * gpool: a fixed-size, channel-backed object pool (Go)

    Shallow embedding of [gpool.go].  The Go program is concurrent: callers
    invoke [Get], [Put] and [Close] on a shared pool, and every discarded
    instance is handed to a goroutine that runs the user's [CloseFunc].

    The embedding makes the program state explicit and executes it one
    _event_ at a time.  An event is either an operation of a caller or the
    scheduler running one pending destructor goroutine to completion.  An
    execution of the program is a list of events, so a statement that
    quantifies over all event lists quantifies over all interleavings of the
    callers' operations with the destructor goroutines, at the granularity of
    whole operations.  That granularity loses nothing for [Get] and [Put] of
    [*pool[T]], which perform a single channel operation each.  [Close] is
    executed as one event: its drain loop touches only the channel, the wait
    group and the set of spawned goroutines, none of which a destructor
    reads; no other caller runs in the middle of it.  A destructor call is
    one event too ([CloseFunc] must be safe for concurrent use).

    Panics of the Go runtime ([make] with a bad size, send on a closed
    channel, close of a closed channel, a negative wait-group counter, a call
    of a nil func) are results of the embedded functions. *)

From stdpp Require Import base numbers list strings.

Module gpool.

(** ** Results of operations that may panic *)

Inductive result (A : Type) : Type :=
| Ok (a : A)
| Panic (msg : string).
Arguments Ok {A} a.
Arguments Panic {A} msg.

#[global] Instance result_ret : MRet result := @Ok.
#[global] Instance result_bind : MBind result := λ A B k r,
  match r with
  | Ok a => k a
  | Panic msg => Panic msg
  end.

Definition is_Ok {A} (r : result A) : Prop := ∃ a, r = Ok a.

(** What the runtime knows about a Go type: its zero value, and the largest
    buffer [make(chan T, n)] accepts for it (the allocation limit). *)
Class GoType (T : Type) : Type := {
  zero : T;
  maxElems : Z
}.

Section Gpool.

(** [T] is the type parameter of [Pool[T]].  [W] is the part of the program
    state outside the pool that the user-supplied functions ([NewFunc],
    [CloseFunc], [Reset]) and the callers read and write: instances of
    reference type ([chan struct{}], [*bytes.Buffer]) are handles into [W]. *)
Context {T : Type} `{GoType T} {W : Type}.

(** ** Buffered channels, as far as the pool uses them *)

Record chan : Type := Chan {
  buf : list T;      (* queued elements, oldest first *)
  cap : Z;           (* cap(c) *)
  closed : bool
}.

(** [make(chan T, size)] *)
Definition make_chan (size : Z) : result chan :=
  if bool_decide (size < 0 ∨ maxElems < size)%Z
  then Panic "makechan: size out of range"
  else Ok (Chan [] size false).

(** [len(c)] *)
Definition len (ch : chan) : Z := Z.of_nat (length (buf ch)).

(** [select { case v := <-c: ... default: ... }]: [Some (v, c')] when the
    receive case fires, [None] when the default case is taken.  A closed
    channel still delivers what it has queued and then the zero value. *)
Definition select_recv (ch : chan) : option (T * chan) :=
  match buf ch with
  | v :: rest => Some (v, Chan rest (cap ch) (closed ch))
  | [] => if closed ch then Some (zero, ch) else None
  end.

(** [select { case c <- v: default: }]: [Ok (Some c')] when the send case
    fires, [Ok None] when the default case is taken.  No receiver is ever
    parked on the pool's channel (every receive is either inside a [select]
    with a default or follows [close]), so a send fires only if the buffer
    has room. *)
Definition select_send (v : T) (ch : chan) : result (option chan) :=
  if closed ch then Panic "send on closed channel"
  else if bool_decide (len ch < cap ch)%Z
       then Ok (Some (Chan (buf ch ++ [v]) (cap ch) (closed ch)))
       else Ok None.

(** the builtin [close(c)] *)
Definition chan_close (ch : chan) : result chan :=
  if closed ch then Panic "close of closed channel"
  else Ok (Chan (buf ch) (cap ch) true).

(** ** sync.WaitGroup: its counter *)

Definition WaitGroup : Type := Z.

Definition wg_Add (delta : Z) (n : WaitGroup) : result WaitGroup :=
  if bool_decide (n + delta < 0)%Z
  then Panic "sync: negative WaitGroup counter"
  else Ok (n + delta)%Z.

Definition wg_Done (n : WaitGroup) : result WaitGroup := wg_Add (-1) n.

(** [Wait] blocks while the counter is not zero: it returns in exactly the
    states where [wg_Wait] holds. *)
Definition wg_Wait (n : WaitGroup) : bool := bool_decide (n = 0%Z).

(** ** Options, the pool struct and the program state *)

Record Options : Type := {
  NewFunc : option (W → T * W);
  CloseFunc : option (T → W → W)
}.

(** [type pool[T any] struct { c; new; close; wg }] *)
Record pool : Type := MkPool {
  pool_c : chan;
  pool_new : option (W → T * W);
  pool_close : option (T → W → W);
  pool_wg : WaitGroup
}.

(** The program state around one pool.  [goroutines] holds, oldest first,
    the argument [v] of every goroutine spawned by [maybeClose] that has not
    run yet.  The last three fields are ghost logs: the results of the
    constructor calls, the arguments of the [maybeClose] calls and the
    arguments of the completed destructor calls, each in order. *)
Record state : Type := State {
  st_pool : pool;
  world : W;
  goroutines : list T;
  made : list T;
  discarded : list T;
  destroyed : list T
}.

Definition boot (p : pool) (w : W) : state := State p w [] [] [] [].

Definition chan_of (s : state) : chan := pool_c (st_pool s).

Definition set_chan (ch : chan) (s : state) : state :=
  let p := st_pool s in
  State (MkPool ch (pool_new p) (pool_close p) (pool_wg p))
        (world s) (goroutines s) (made s) (discarded s) (destroyed s).

Definition set_wg (n : WaitGroup) (s : state) : state :=
  let p := st_pool s in
  State (MkPool (pool_c p) (pool_new p) (pool_close p) n)
        (world s) (goroutines s) (made s) (discarded s) (destroyed s).

Definition set_world (w : W) (s : state) : state :=
  State (st_pool s) w (goroutines s) (made s) (discarded s) (destroyed s).

Definition spawn (v : T) (s : state) : state :=
  State (st_pool s) (world s) (goroutines s ++ [v]) (made s) (discarded s)
        (destroyed s).

Definition log_made (v : T) (s : state) : state :=
  State (st_pool s) (world s) (goroutines s) (made s ++ [v]) (discarded s)
        (destroyed s).

Definition log_discarded (v : T) (s : state) : state :=
  State (st_pool s) (world s) (goroutines s) (made s) (discarded s ++ [v])
        (destroyed s).

(** ** The methods of [*pool[T]] *)

Definition maybeNew (s : state) : T * state :=
  match pool_new (st_pool s) with
  | Some f => let '(v, w) := f (world s) in (v, log_made v (set_world w s))
  | None => (zero, s)
  end.

Definition maybeClose (v : T) (s : state) : result state :=
  let s := log_discarded v s in
  match pool_close (st_pool s) with
  | Some _ =>
      n ← wg_Add 1 (pool_wg (st_pool s));
      Ok (spawn v (set_wg n s))
  | None => Ok s
  end.

(** The body of the goroutine spawned by [maybeClose], run to completion:
    [defer p.wg.Done(); p.close(v)], for the [i]-th pending goroutine.
    Nothing happens when there is no such goroutine. *)
Definition go_step (i : nat) (s : state) : result state :=
  match goroutines s !! i with
  | None => Ok s
  | Some v =>
      match pool_close (st_pool s) with
      | None => Panic "invalid memory address or nil pointer dereference"
      | Some f =>
          n ← wg_Done (pool_wg (st_pool s));
          Ok (State (MkPool (pool_c (st_pool s)) (pool_new (st_pool s))
                            (pool_close (st_pool s)) n)
                    (f v (world s)) (delete i (goroutines s)) (made s)
                    (discarded s) (destroyed s ++ [v]))
      end
  end.

Definition pool_Get (s : state) : T * state :=
  match select_recv (chan_of s) with
  | Some (v, ch) => (v, set_chan ch s)
  | None => maybeNew s
  end.

Definition pool_Put (v : T) (s : state) : result state :=
  r ← select_send v (chan_of s);
  match r with
  | Some ch => Ok (set_chan ch s)
  | None => maybeClose v s
  end.

(** [for v := range p.c { p.maybeClose(v) }] on the closed channel: one
    iteration per queued element. *)
Fixpoint drain (n : nat) (s : state) : result state :=
  match n with
  | O => Ok s
  | S n' =>
      match buf (chan_of s) with
      | [] => Ok s
      | v :: rest =>
          s' ← maybeClose v (set_chan (Chan rest (cap (chan_of s))
                                            (closed (chan_of s))) s);
          drain n' s'
      end
  end.

Definition pool_Close (s : state) : result state :=
  ch ← chan_close (chan_of s);
  drain (length (buf ch)) (set_chan ch s).

(** ** The [Pool[T]] interface and the constructors *)

Record Pool : Type := {
  Get : state → T * state;
  Put : T → state → result state;
  Close : state → result state
}.

Definition pool_methods : Pool :=
  {| Get := pool_Get; Put := pool_Put; Close := pool_Close |}.

(** [NewPool] returns the interface value: the method set of [*pool[T]] and
    the freshly allocated struct. *)
Definition NewPool (size : Z) (opt : Options) : result (Pool * pool) :=
  ch ← make_chan size;
  Ok (pool_methods, MkPool ch (NewFunc opt) (CloseFunc opt) 0%Z).

(** [type Resetter interface { Reset() }]: the method acts on the instance's
    referent, which lives in [W].  [Reset v w] is the world after a call of
    [v.Reset()] that returns.  A [Reset] that panics, as the one of a nil
    [*bytes.Buffer] does, has no counterpart here: what is stated of
    [resetPool.Put] is stated of the calls whose [Reset] returns. *)
Class Resetter : Type := Reset : T → W → W.

(** [type resetPool[T Resetter] struct { Pool[T] }]: [Get] and [Close] are
    promoted from the embedded interface, [Put] is overridden. *)
Definition resetPool `{Resetter} (P : Pool) : Pool :=
  {| Get := Get P;
     Put := λ v s, Put P v (set_world (Reset v (world s)) s);
     Close := Close P |}.

Definition NewResetterPool `{Resetter} (size : Z) (opt : Options)
  : result (Pool * pool) :=
  '(P, p) ← NewPool size opt;
  Ok (resetPool P, p).

(** ** Executions *)

Inductive event : Type :=
| EGet                      (* a caller calls Get *)
| EPut (v : T)              (* a caller calls Put(v) *)
| EClose                    (* a caller calls Close *)
| EGo (i : nat)             (* the scheduler runs the i-th pending goroutine *)
| ECaller (f : W → W).      (* a caller's own code acts on the world *)

(** One event; the [option T] is what [Get] returned. *)
Definition exec (P : Pool) (e : event) (s : state) : result (option T * state) :=
  match e with
  | EGet => let '(v, s') := Get P s in Ok (Some v, s')
  | EPut v => s' ← Put P v s; Ok (None, s')
  | EClose => s' ← Close P s; Ok (None, s')
  | EGo i => s' ← go_step i s; Ok (None, s')
  | ECaller f => Ok (None, set_world (f (world s)) s)
  end.

(** A whole execution: the values returned by the [Get] calls, in order,
    and the final state. *)
Fixpoint run (P : Pool) (tr : list event) (s : state) : result (list T * state) :=
  match tr with
  | [] => Ok ([], s)
  | e :: tr' =>
      '(o, s1) ← exec P e s;
      '(os, s2) ← run P tr' s1;
      Ok (from_option (λ v, [v]) [] o ++ os, s2)
  end.

Definition is_go (e : event) : bool :=
  match e with EGo _ => true | _ => false end.

Definition is_close (e : event) : bool :=
  match e with EClose => true | _ => false end.

(** The callers' operations of an execution: what is left when the
    scheduler's steps are taken out. *)
Definition calls (tr : list event) : list event :=
  filter (λ e, is_go e = false) tr.

(** ** Well-formed states

    What every state reached from a fresh pool satisfies.  [wf_run] is the
    part that also holds in the middle of [Close]'s drain loop. *)
Record wf_run (s : state) : Prop := {
  wf_len : (len (chan_of s) ≤ cap (chan_of s))%Z;
  wf_wg : pool_wg (st_pool s) = Z.of_nat (length (goroutines s));
  wf_nil : pool_close (st_pool s) = None → goroutines s = [] ∧ destroyed s = [];
  wf_acct : is_Some (pool_close (st_pool s)) →
            destroyed s ++ goroutines s ≡ₚ discarded s
}.

Definition wf (s : state) : Prop :=
  wf_run s ∧ (closed (chan_of s) = true → buf (chan_of s) = []).

(** The fields of the pool that no operation writes. *)
Definition same_pool (s s' : state) : Prop :=
  pool_new (st_pool s') = pool_new (st_pool s) ∧
  pool_close (st_pool s') = pool_close (st_pool s) ∧
  cap (chan_of s') = cap (chan_of s).

(** The free slots of the channel's buffer: [cap(c) - len(c)]. *)
Definition room (s : state) : nat :=
  Z.to_nat (cap (chan_of s) - len (chan_of s)).

(** What [resetPool.Put] does, spelled out for the wrapped pool: the
    caller's thread runs [v.Reset()] and then calls the wrapped [Put]. *)
Definition unfold_reset `{Resetter} (e : event) : list event :=
  match e with
  | EPut v => [ECaller (Reset v); EPut v]
  | _ => [e]
  end.

(** [f] leaves the property [Q] of the world intact. *)
Definition keeps (Q : W → Prop) (f : W → W) : Prop := ∀ w, Q w → Q (f w).

Definition caller_keeps (Q : W → Prop) (e : event) : Prop :=
  match e with
  | ECaller f => keeps Q f
  | _ => True
  end.

Definition funcs_keep (Q : W → Prop) (s : state) : Prop :=
  (∀ f, pool_new (st_pool s) = Some f → keeps Q (λ w, (f w).2)) ∧
  (∀ f v, pool_close (st_pool s) = Some f → keeps Q (f v)).

(** The instances the callers put, in order. *)
Definition puts_of (tr : list event) : list T :=
  omap (λ e, match e with EPut v => Some v | _ => None end) tr.

(** [Close] at a finer grain, for the executions in which other threads run
    while it drains: after [close(p.c)], [None] is one iteration of the
    range loop and [Some e] an event of another thread. *)
Definition race_step (P : Pool) (x : option event) (s : state)
  : result (option T * state) :=
  match x with
  | Some e => exec P e s
  | None => s' ← drain 1 s; Ok (None, s')
  end.

Fixpoint run_race (P : Pool) (xs : list (option event)) (s : state)
  : result (list T * state) :=
  match xs with
  | [] => Ok ([], s)
  | x :: xs' =>
      '(o, s1) ← race_step P x s;
      '(os, s2) ← run_race P xs' s1;
      Ok (from_option (λ v, [v]) [] o ++ os, s2)
  end.

(** The state in which [close(p.c)] leaves an open pool, before the range
    loop of [Close] starts. *)
Definition closing (s : state) : state :=
  set_chan (Chan (buf (chan_of s)) (cap (chan_of s)) true) s.

(** The callers of an execution keep their hands off the stored instances:
    whenever a caller acts on the world, every instance that is in the store
    and has the property [Q] still has it afterwards. *)
Fixpoint hands_off (Q : T → W → Prop) (P : Pool) (tr : list event) (s : state)
  : Prop :=
  match tr with
  | [] => True
  | e :: tr' =>
      (if e is ECaller f
       then ∀ v, v ∈ buf (chan_of s) → Q v (world s) → Q v (f (world s))
       else True) ∧
      (if exec P e s is Ok (_, s') then hands_off Q P tr' s' else True)
  end.

End Gpool.

Arguments chan : clear implicits.
Arguments Options : clear implicits.
Arguments pool : clear implicits.
Arguments state : clear implicits.
Arguments Pool : clear implicits.
Arguments event : clear implicits.
Arguments Resetter : clear implicits.

(** ** Instances after the repository's tests

    Instances of reference type are handles: numbers, [0] being [nil].  A
    handle takes 8 bytes; on linux/amd64 [make(chan T, n)] panics for such
    elements when [8 * n] exceeds [2^48] minus the 96 bytes of the channel
    header.  Below that limit an allocation that the machine cannot serve
    ends the program with a fatal error, which is not a panic and has no
    counterpart here. *)
#[global] Instance handle_GoType : GoType nat :=
  {| zero := 0; maxElems := 2 ^ 45 - 12 |}.

(** [TestPool]: [T = chan struct{}].  The world counts the channels made
    and lists the handles of the channels closed, latest first. *)
Record chans : Type := Chans { chans_made : nat; chans_closed : list nat }.

Definition TestPool_opt : Options nat chans :=
  {| NewFunc := Some (λ w, (S (chans_made w),
                            Chans (S (chans_made w)) (chans_closed w)));
     CloseFunc := Some (λ v w, Chans (chans_made w) (v :: chans_closed w)) |}.

(** A pool without constructor and destructor. *)
Definition bare_opt : Options nat chans :=
  {| NewFunc := None; CloseFunc := None |}.

(** The scenario of [TestPool]: 200 [Get]s, 200 [Put]s of the instances
    obtained, the overflow destructors run, 100 [Get]s, then [Close] and
    [Wait].  The test defers a [Put] for each instance of the 100 [Get]s, so
    these run, last first, before [Close]; [put_back] tells whether they are
    part of the scenario.  The result is the number of destructor calls
    before [Close] and after [Wait], and the final state. *)
Definition TestPool (put_back : bool) : result (nat * nat * state nat chans) :=
  '(P, p) ← NewPool 100 TestPool_opt;
  '(checks, s1) ← run P (replicate 200 EGet) (boot p (Chans 0 []));
  '(_, s2) ← run P (EPut <$> checks) s1;
  '(_, s3) ← run P (replicate (length (goroutines s2)) (EGo 0)) s2;
  '(vs, s4) ← run P (replicate 100 EGet) s3;
  '(_, s5) ← run P (if put_back then EPut <$> reverse vs else []) s4;
  s6 ← Close P s5;
  '(_, s7) ← run P (replicate (length (goroutines s6)) (EGo 0)) s6;
  Ok (length (destroyed s5), length (destroyed s7), s7).

(** [Test_resetPool]: [T = *bytes.Buffer].  A buffer is its contents and
    its capacity; [Reset] empties the contents and keeps the capacity.  A
    write appends: in place when the bytes fit; into a fresh slice of 64
    bytes when the buffer has no slice yet and at most 64 bytes are written
    ([smallBufferSize]); into a larger slice otherwise, whose capacity is
    [2 * cap + n] up to Go 1.19 and a rounded-up size in later versions
    (the first of the two is taken here). *)
Record Buffer : Type := MkBuffer { buf_data : list nat; buf_cap : nat }.

Record heap : Type := Heap { allocated : nat; cell : nat → Buffer }.

Definition update (v : nat) (f : Buffer → Buffer) (h : heap) : heap :=
  Heap (allocated h) (λ u, if decide (u = v) then f (cell h u) else cell h u).

Definition Buffer_Reset (b : Buffer) : Buffer := MkBuffer [] (buf_cap b).

Definition Buffer_Write (bs : list nat) (b : Buffer) : Buffer :=
  let n := length bs in
  MkBuffer (buf_data b ++ bs)
           (if length (buf_data b) + n <=? buf_cap b then buf_cap b
            else if (buf_cap b =? 0) && (n <=? 64) then 64
            else 2 * buf_cap b + n).

(** The [Reset] method of [*bytes.Buffer], at the handles of allocated
    buffers. *)
#[global] Instance Buffer_Resetter : Resetter nat heap :=
  λ v h, update v Buffer_Reset h.

(** [new(bytes.Buffer)] *)
Definition new_Buffer (h : heap) : nat * heap :=
  let v := S (allocated h) in
  (v, Heap v (λ u, if decide (u = v) then MkBuffer [] 0 else cell h u)).

Definition Test_resetPool_opt : Options nat heap :=
  {| NewFunc := Some new_Buffer; CloseFunc := None |}.

Definition empty_heap : heap := Heap 0 (λ _, MkBuffer [] 0).

Definition Len (v : nat) (h : heap) : nat := length (buf_data (cell h v)).
Definition Cap (v : nat) (h : heap) : nat := buf_cap (cell h v).

(** [Test_resetPool]: [Get], write "hello", [Put], [Get]; the result is the
    two handles, and [Len] and [Cap] of the second one. *)
Definition Test_resetPool : result (nat * nat * nat * nat) :=
  '(P, p) ← NewResetterPool 10 Test_resetPool_opt;
  let '(b, s1) := Get P (boot p empty_heap) in
  let s2 := set_world (update b (Buffer_Write [104; 101; 108; 108; 111])
                              (world s1)) s1 in
  s3 ← Put P b s2;
  let '(b', s4) := Get P s3 in
  Ok (b, b', Len b' (world s4), Cap b' (world s4)).

(** The struct [NewPool size opt] allocates, and the proof that it does. *)
Ltac fresh_pool size opt p Hnew :=
  set (p := MkPool (Chan [] size false) (NewFunc opt) (CloseFunc opt) 0%Z);
  assert (NewPool size opt = Ok (pool_methods, p)) as Hnew by reflexivity.

(** ** Theory *)

Section Theory.

Context {T : Type} `{GoType T} {W : Type}.
Implicit Types (s : state T W) (v : T) (P : Pool T W) (e : event T W)
  (tr : list (event T W)) (ch : chan T) (vs outs : list T).

Lemma run_cons P e tr s :
  run P (e :: tr) s =
  '(o, s1) ← exec P e s; '(os, s2) ← run P tr s1;
  Ok (from_option (λ v, [v]) [] o ++ os, s2).
Proof. reflexivity. Qed.

Lemma run_app P tr1 tr2 s :
  run P (tr1 ++ tr2) s =
  '(o1, s1) ← run P tr1 s; '(o2, s2) ← run P tr2 s1; Ok (o1 ++ o2, s2).
Proof.
  revert s. induction tr1 as [|e tr1 IH]; intros s; simpl.
  - destruct (run P tr2 s) as [[o2 s2]|]; reflexivity.
  - destruct (exec P e s) as [[o s1]|]; simpl; [|reflexivity].
    rewrite IH. destruct (run P tr1 s1) as [[o1 s1']|]; simpl; [|reflexivity].
    destruct (run P tr2 s1') as [[o2 s2]|]; simpl; [|reflexivity].
    by rewrite (assoc_L (++)).
Qed.

(** *** Single steps *)

Lemma wg_Add_Ok delta (n : WaitGroup) :
  (0 ≤ n + delta)%Z → wg_Add delta n = Ok (n + delta)%Z.
Proof. intros Hn. unfold wg_Add. rewrite bool_decide_eq_false_2; [done|lia]. Qed.

Lemma maybeClose_Some v s f :
  pool_close (st_pool s) = Some f →
  (0 ≤ pool_wg (st_pool s))%Z →
  maybeClose v s =
  Ok (spawn v (set_wg (pool_wg (st_pool s) + 1)%Z (log_discarded v s))).
Proof.
  intros Hf Hwg. unfold maybeClose. simpl. rewrite Hf.
  rewrite wg_Add_Ok by lia. reflexivity.
Qed.

Lemma maybeClose_None v s :
  pool_close (st_pool s) = None → maybeClose v s = Ok (log_discarded v s).
Proof. intros Hf. unfold maybeClose. simpl. by rewrite Hf. Qed.

Lemma wf_run_wg_nonneg s : wf_run s → (0 ≤ pool_wg (st_pool s))%Z.
Proof. intros [_ Hwg _ _]. rewrite Hwg. lia. Qed.

(** [maybeClose] never panics on a well-formed state; it logs the discard,
    and spawns exactly one goroutine when there is a destructor. *)
Lemma maybeClose_wf v s :
  wf_run s →
  ∃ s', maybeClose v s = Ok s' ∧ wf_run s' ∧
        chan_of s' = chan_of s ∧
        pool_new (st_pool s') = pool_new (st_pool s) ∧
        pool_close (st_pool s') = pool_close (st_pool s) ∧
        world s' = world s ∧ made s' = made s ∧
        destroyed s' = destroyed s ∧
        discarded s' = discarded s ++ [v] ∧
        goroutines s' =
          goroutines s ++ (if pool_close (st_pool s) is Some _ then [v] else []).
Proof.
  intros Hwf. pose proof (wf_run_wg_nonneg s Hwf) as Hnn.
  destruct Hwf as [Hlen Hwg Hnil Hacct].
  destruct (pool_close (st_pool s)) as [f|] eqn:Hf.
  - eexists. split; [by eapply maybeClose_Some|].
    split; [|by simpl; rewrite ?Hf].
    split; simpl.
    + done.
    + rewrite Hwg, length_app. simpl. lia.
    + by rewrite Hf.
    + intros _. rewrite (assoc_L (++)). f_equiv. apply Hacct. eauto.
  - eexists. split; [by apply maybeClose_None|].
    split; [|by simpl; rewrite ?Hf, ?(right_id_L [] (++))].
    split; simpl; [done|done|by rewrite Hf|].
    rewrite Hf. intros [? ?]. done.
Qed.

Lemma set_chan_id s : set_chan (chan_of s) s = s.
Proof. by destruct s as [[? ? ? ?] ? ? ? ? ?]. Qed.

Lemma same_pool_refl s : same_pool s s.
Proof. by repeat split. Qed.

Lemma same_pool_trans s1 s2 s3 :
  same_pool s1 s2 → same_pool s2 s3 → same_pool s1 s3.
Proof. intros (?&?&?) (?&?&?). repeat split; congruence. Qed.

(** A goroutine step never panics on a well-formed state. *)
Lemma go_step_wf i s :
  wf_run s →
  ∃ s', go_step i s = Ok s' ∧ wf_run s' ∧ same_pool s s' ∧
        chan_of s' = chan_of s ∧ made s' = made s ∧
        discarded s' = discarded s ∧
        match goroutines s !! i with
        | Some v =>
            goroutines s' = delete i (goroutines s) ∧
            destroyed s' = destroyed s ++ [v] ∧
            ∃ f, pool_close (st_pool s) = Some f ∧ world s' = f v (world s)
        | None => s' = s
        end.
Proof.
  intros Hwf. unfold go_step.
  destruct (goroutines s !! i) as [v|] eqn:Hi.
  2:{ exists s. by split_and!. }
  destruct Hwf as [Hlen Hwg Hnil Hacct].
  pose proof (lookup_lt_Some _ _ _ Hi) as Hlt.
  destruct (pool_close (st_pool s)) as [f|] eqn:Hf.
  2:{ destruct Hnil as [Hg _]; [done|]. rewrite Hg in Hi. done. }
  unfold wg_Done. rewrite wg_Add_Ok by lia. simpl.
  eexists. split; [reflexivity|].
  split; [|split_and!; simpl; rewrite ?Hf; eauto; done].
  split; simpl.
  - done.
  - rewrite length_delete by eauto. lia.
  - done.
  - intros _. rewrite <- Hacct by eauto.
    rewrite <- (assoc_L (++)). f_equiv. simpl.
    symmetry. by apply delete_Permutation.
Qed.

(** [Get], case by case. *)
Lemma pool_Get_stored s v rest :
  buf (chan_of s) = v :: rest →
  pool_Get s = (v, set_chan (Chan rest (cap (chan_of s)) (closed (chan_of s))) s).
Proof. intros Hb. unfold pool_Get, select_recv. by rewrite Hb. Qed.

Lemma pool_Get_empty s :
  buf (chan_of s) = [] → closed (chan_of s) = false → pool_Get s = maybeNew s.
Proof. intros Hb Hc. unfold pool_Get, select_recv. by rewrite Hb, Hc. Qed.

Lemma pool_Get_closed s :
  buf (chan_of s) = [] → closed (chan_of s) = true → pool_Get s = (zero, s).
Proof.
  intros Hb Hc. unfold pool_Get, select_recv. rewrite Hb, Hc.
  by rewrite set_chan_id.
Qed.

Lemma maybeNew_Some s f :
  pool_new (st_pool s) = Some f →
  maybeNew s =
  ((f (world s)).1, log_made (f (world s)).1 (set_world (f (world s)).2 s)).
Proof. intros Hf. unfold maybeNew. rewrite Hf. by destruct (f (world s)). Qed.

Lemma maybeNew_None s : pool_new (st_pool s) = None → maybeNew s = (zero, s).
Proof. intros Hf. unfold maybeNew. by rewrite Hf. Qed.

Lemma maybeNew_frame s v s' :
  maybeNew s = (v, s') →
  st_pool s' = st_pool s ∧ goroutines s' = goroutines s ∧
  discarded s' = discarded s ∧ destroyed s' = destroyed s.
Proof.
  unfold maybeNew. destruct (pool_new (st_pool s)) as [f|].
  - destruct (f (world s)) as [v' w']. intros [= <- <-]. by repeat split.
  - intros [= <- <-]. by repeat split.
Qed.

(** Well-formedness reads only the pool struct, the goroutines and the
    two discard logs. *)
Lemma wf_run_ext s s' :
  st_pool s' = st_pool s → goroutines s' = goroutines s →
  discarded s' = discarded s → destroyed s' = destroyed s →
  wf_run s → wf_run s'.
Proof.
  intros Hp Hg Hd Hx [Hlen Hwg Hnil Hacct].
  split; unfold chan_of in *; rewrite ?Hp, ?Hg, ?Hd, ?Hx; done.
Qed.

Lemma wf_ext s s' :
  st_pool s' = st_pool s → goroutines s' = goroutines s →
  discarded s' = discarded s → destroyed s' = destroyed s →
  wf s → wf s'.
Proof.
  intros Hp Hg Hd Hx [Hwf Hcl]. split; [by eapply wf_run_ext|].
  unfold chan_of in *. by rewrite Hp.
Qed.

Lemma pool_Get_wf s v s' :
  wf s → pool_Get s = (v, s') →
  wf s' ∧ same_pool s s' ∧ closed (chan_of s') = closed (chan_of s) ∧
  goroutines s' = goroutines s ∧ discarded s' = discarded s ∧
  destroyed s' = destroyed s ∧ pool_wg (st_pool s') = pool_wg (st_pool s).
Proof.
  intros Hwf Hget.
  destruct (buf (chan_of s)) as [|x rest] eqn:Hb.
  - destruct (closed (chan_of s)) eqn:Hc.
    + rewrite pool_Get_closed in Hget by done. injection Hget as <- <-.
      by split_and!.
    + rewrite pool_Get_empty in Hget by done.
      destruct (maybeNew_frame _ _ _ Hget) as (Hp & Hg & Hd & Hx).
      split; [by eapply wf_ext|].
      unfold same_pool, chan_of. rewrite Hp. by split_and!.
  - rewrite (pool_Get_stored _ _ _ Hb) in Hget. injection Hget as <- <-.
    destruct Hwf as [[Hlen Hwg Hnil Hacct] Hcl].
    split; [|by split_and!].
    split; [split; simpl; try done|].
    + unfold len in *. rewrite Hb in Hlen. simpl in *. lia.
    + simpl. intros Hc. specialize (Hcl Hc). congruence.
Qed.

(** [Put], case by case. *)
Lemma pool_Put_closed v s :
  closed (chan_of s) = true → pool_Put v s = Panic "send on closed channel".
Proof. intros Hc. unfold pool_Put, select_send. by rewrite Hc. Qed.

Lemma pool_Put_room v s :
  closed (chan_of s) = false → (len (chan_of s) < cap (chan_of s))%Z →
  pool_Put v s =
  Ok (set_chan (Chan (buf (chan_of s) ++ [v]) (cap (chan_of s)) false) s).
Proof.
  intros Hc Hlt. unfold pool_Put, select_send. rewrite Hc.
  by rewrite bool_decide_eq_true_2.
Qed.

Lemma pool_Put_full v s :
  closed (chan_of s) = false → (cap (chan_of s) ≤ len (chan_of s))%Z →
  pool_Put v s = maybeClose v s.
Proof.
  intros Hc Hlt. unfold pool_Put, select_send. rewrite Hc.
  rewrite bool_decide_eq_false_2 by lia. done.
Qed.

Lemma pool_Put_wf v s :
  wf s → closed (chan_of s) = false →
  ∃ s', pool_Put v s = Ok s' ∧ wf s' ∧ same_pool s s' ∧
        closed (chan_of s') = false ∧ made s' = made s ∧
        world s' = world s ∧ destroyed s' = destroyed s ∧
        if bool_decide (len (chan_of s) < cap (chan_of s))%Z
        then buf (chan_of s') = buf (chan_of s) ++ [v] ∧
             discarded s' = discarded s ∧ goroutines s' = goroutines s
        else buf (chan_of s') = buf (chan_of s) ∧
             discarded s' = discarded s ++ [v] ∧
             goroutines s' =
               goroutines s ++ (if pool_close (st_pool s) is Some _ then [v] else []).
Proof.
  intros [Hwf Hcl] Hc. case_bool_decide as Hlt.
  - eexists. split; [by apply pool_Put_room|].
    destruct Hwf as [Hlen Hwg Hnil Hacct].
    split; [|by split_and!].
    split; [split; simpl; try done|done].
    unfold len in *. simpl. rewrite length_app. simpl. lia.
  - destruct (maybeClose_wf v s Hwf)
      as (s' & Hs' & Hwf' & Hch & Hn & Hf & Hw & Hm & Hx & Hd & Hg).
    exists s'. rewrite pool_Put_full by (done || lia).
    split; [done|]. unfold wf, same_pool. rewrite Hch, Hn, Hf, Hc.
    by split_and!.
Qed.

(** [Close]: the drain loop, then the whole method. *)
Lemma drain_wf n s :
  wf_run s →
  ∃ s', drain n s = Ok s' ∧ wf_run s' ∧ same_pool s s' ∧
        closed (chan_of s') = closed (chan_of s) ∧
        buf (chan_of s') = drop n (buf (chan_of s)) ∧
        made s' = made s ∧ world s' = world s ∧
        destroyed s' = destroyed s ∧
        discarded s' = discarded s ++ take n (buf (chan_of s)) ∧
        goroutines s' =
          goroutines s ++
          (if pool_close (st_pool s) is Some _ then take n (buf (chan_of s)) else []).
Proof.
  revert s. induction n as [|n IH]; intros s Hwf; simpl.
  { exists s. rewrite drop_0, !take_0, (right_id_L [] (++)).
    split_and!; try done.
    by destruct (pool_close (st_pool s)); rewrite (right_id_L [] (++)). }
  destruct (buf (chan_of s)) as [|x rest] eqn:Hb.
  { exists s. rewrite drop_nil, !take_nil, (right_id_L [] (++)).
    split_and!; try done.
    by destruct (pool_close (st_pool s)); rewrite (right_id_L [] (++)). }
  set (s0 := set_chan (Chan rest (cap (chan_of s)) (closed (chan_of s))) s).
  assert (wf_run s0) as Hwf0.
  { destruct Hwf as [Hlen Hwg Hnil Hacct]. split; simpl; try done.
    unfold len in *. rewrite Hb in Hlen. simpl in *. lia. }
  destruct (maybeClose_wf x s0 Hwf0)
    as (s1 & Hs1 & Hwf1 & Hch & Hn & Hf & Hw & Hm & Hx & Hd & Hg).
  rewrite Hs1. simpl.
  destruct (IH s1 Hwf1)
    as (s2 & Hs2 & Hwf2 & Hsame & Hc2 & Hb2 & Hm2 & Hw2 & Hx2 & Hd2 & Hg2).
  exists s2. rewrite Hch in Hc2, Hb2, Hd2, Hg2. simpl in *.
  rewrite Hf in Hg2. simpl in Hg2.
  destruct Hsame as (Hsn & Hsc & Hscap). rewrite Hch in Hscap. simpl in Hscap.
  unfold same_pool. rewrite Hsn, Hsc, Hn, Hf, Hscap, Hm2, Hw2, Hx2, Hd2, Hg2, Hd, Hg.
  split_and!; try done.
  - by rewrite <- (assoc_L (++)).
  - destruct (pool_close (st_pool s)); by rewrite <- (assoc_L (++)).
Qed.

Lemma pool_Close_closed s :
  closed (chan_of s) = true → pool_Close s = Panic "close of closed channel".
Proof. intros Hc. unfold pool_Close, chan_close. by rewrite Hc. Qed.

Lemma pool_Close_wf s :
  wf s → closed (chan_of s) = false →
  ∃ s', pool_Close s = Ok s' ∧ wf s' ∧ same_pool s s' ∧
        closed (chan_of s') = true ∧ buf (chan_of s') = [] ∧
        made s' = made s ∧ world s' = world s ∧
        destroyed s' = destroyed s ∧
        discarded s' = discarded s ++ buf (chan_of s) ∧
        goroutines s' =
          goroutines s ++
          (if pool_close (st_pool s) is Some _ then buf (chan_of s) else []).
Proof.
  intros [Hwf Hcl] Hc. unfold pool_Close, chan_close. rewrite Hc. simpl.
  set (s0 := set_chan (Chan (buf (chan_of s)) (cap (chan_of s)) true) s).
  assert (wf_run s0) as Hwf0.
  { destruct Hwf as [Hlen Hwg Hnil Hacct]. by split. }
  destruct (drain_wf (length (buf (chan_of s))) s0 Hwf0)
    as (s1 & Hs1 & Hwf1 & Hsame & Hc1 & Hb1 & Hm1 & Hw1 & Hx1 & Hd1 & Hg1).
  exists s1. simpl in *. rewrite drop_all in Hb1. rewrite firstn_all in Hd1, Hg1.
  split_and!; try done.
Qed.

(** *** Executions of [*pool[T]] *)

Lemma NewPool_Ok size (opt : Options T W) P (p : pool T W) :
  NewPool size opt = Ok (P, p) →
  P = pool_methods ∧ (0 ≤ size ≤ maxElems)%Z ∧
  p = MkPool (Chan [] size false) (NewFunc opt) (CloseFunc opt) 0%Z.
Proof.
  unfold NewPool, make_chan. case_bool_decide as Hs; [done|].
  simpl. intros [= <- <-]. split_and!; try done; lia.
Qed.

Lemma NewPool_size size (opt : Options T W) :
  (0 ≤ size ≤ maxElems)%Z →
  NewPool size opt =
  Ok (pool_methods, MkPool (Chan [] size false) (NewFunc opt) (CloseFunc opt) 0%Z).
Proof.
  intros Hs. unfold NewPool, make_chan.
  rewrite bool_decide_eq_false_2 by lia. done.
Qed.

Lemma boot_wf size (opt : Options T W) (w : W) :
  (0 ≤ size)%Z →
  wf (boot (MkPool (Chan [] size false) (NewFunc opt) (CloseFunc opt) 0%Z) w).
Proof.
  intros Hs. split; [split|]; simpl; try done.
Qed.

Lemma exec_wf e s o s' :
  wf s → exec pool_methods e s = Ok (o, s') →
  wf s' ∧ same_pool s s' ∧
  (closed (chan_of s) = true → closed (chan_of s') = true).
Proof.
  intros Hwf He. destruct e as [|v| |i|f]; simpl in He.
  - destruct (pool_Get s) as [v s1] eqn:Hget. injection He as <- <-.
    destruct (pool_Get_wf _ _ _ Hwf Hget) as (? & ? & Hc & _).
    rewrite Hc. by split_and!.
  - destruct (closed (chan_of s)) eqn:Hc.
    { by rewrite pool_Put_closed in He. }
    destruct (pool_Put_wf v s Hwf Hc) as (s1 & Hs1 & ? & ? & _).
    rewrite Hs1 in He. injection He as <- <-. by split_and!.
  - destruct (closed (chan_of s)) eqn:Hc.
    { by rewrite pool_Close_closed in He. }
    destruct (pool_Close_wf s Hwf Hc) as (s1 & Hs1 & ? & ? & ? & _).
    rewrite Hs1 in He. injection He as <- <-. by split_and!.
  - destruct Hwf as [Hwf Hcl].
    destruct (go_step_wf i s Hwf) as (s1 & Hs1 & ? & ? & Hch & _).
    rewrite Hs1 in He. injection He as <- <-. unfold wf. rewrite Hch.
    by split_and!.
  - injection He as <- <-. split_and!; try done.
    by apply (wf_ext s).
Qed.

Lemma run_wf tr s outs s' :
  wf s → run pool_methods tr s = Ok (outs, s') →
  wf s' ∧ same_pool s s' ∧
  (closed (chan_of s) = true → closed (chan_of s') = true).
Proof.
  revert s outs. induction tr as [|e tr IH]; intros s outs Hwf Hrun.
  - injection Hrun as <- <-. split_and!; try done.
  - rewrite run_cons in Hrun.
    destruct (exec pool_methods e s) as [[o s1]|] eqn:He; [|done].
    simpl in Hrun.
    destruct (run pool_methods tr s1) as [[os s2]|] eqn:Hr; [|done].
    injection Hrun as <- <-.
    destruct (exec_wf _ _ _ _ Hwf He) as (Hwf1 & Hsame1 & Hc1).
    destruct (IH _ _ Hwf1 Hr) as (Hwf2 & Hsame2 & Hc2).
    split_and!; eauto using same_pool_trans.
Qed.

(** *** Interleavings

    An execution whose callers' operations are [c :: cs] is a run of
    goroutine steps, then [c], then an execution whose callers' operations
    are [cs]. *)
Lemma calls_cons_inv tr e (cs : list (event T W)) :
  calls tr = e :: cs →
  ∃ gs tr', tr = gs ++ e :: tr' ∧ calls gs = [] ∧ calls tr' = cs ∧
            is_go e = false.
Proof.
  induction tr as [|x tr IH]; [done|]. unfold calls in *.
  destruct (is_go x) eqn:Hx.
  - rewrite filter_cons_False by (rewrite Hx; done). intros Hc.
    destruct (IH Hc) as (gs & tr' & -> & Hgs & Htr' & He).
    exists (x :: gs), tr'. split_and!; try done.
    rewrite filter_cons_False by (rewrite Hx; done). done.
  - rewrite filter_cons_True by done. intros [= -> <-].
    exists [], tr. by split_and!.
Qed.

(** Goroutine steps alone: never a panic, and the channel and the caller's
    logs are left alone. *)
Lemma run_sched tr s :
  wf s → calls tr = [] →
  ∃ s', run pool_methods tr s = Ok ([], s') ∧ wf s' ∧ same_pool s s' ∧
        chan_of s' = chan_of s ∧ made s' = made s ∧
        discarded s' = discarded s.
Proof.
  revert s. induction tr as [|e tr IH]; intros s Hwf Hc.
  { exists s. by split_and!. }
  unfold calls in Hc. destruct (is_go e) eqn:He.
  2:{ by rewrite filter_cons_True in Hc. }
  rewrite filter_cons_False in Hc by (rewrite He; done).
  destruct e as [| | |i|]; try done.
  destruct Hwf as [Hwf Hcl].
  destruct (go_step_wf i s Hwf) as (s1 & Hs1 & Hwf1 & Hsame1 & Hch1 & Hm1 & Hd1 & _).
  assert (wf s1) as Hwf1' by (split; [done|by rewrite Hch1]).
  destruct (IH s1 Hwf1' Hc) as (s2 & Hs2 & Hwf2 & Hsame2 & Hch2 & Hm2 & Hd2).
  exists s2. rewrite run_cons. simpl. rewrite Hs1. simpl. rewrite Hs2. simpl.
  split_and!; eauto using same_pool_trans; congruence.
Qed.

(** A run of goroutine steps followed by the rest of the execution. *)
Lemma run_sched_then gs tr s :
  wf s → calls gs = [] →
  ∃ s0, wf s0 ∧ same_pool s s0 ∧ chan_of s0 = chan_of s ∧
        made s0 = made s ∧ discarded s0 = discarded s ∧
        run pool_methods (gs ++ tr) s = run pool_methods tr s0.
Proof.
  intros Hwf Hgs.
  destruct (run_sched gs s Hwf Hgs) as (s0 & Hs0 & ? & ? & ? & ? & ?).
  exists s0. split_and!; try done.
  rewrite run_app, Hs0. simpl.
  by destruct (run pool_methods tr s0) as [[? ?]|].
Qed.

(** Any number of [Put] calls on an open pool, under any interleaving with
    the goroutines: the first [room s] instances are queued, in order, and
    every later one is discarded. *)
Lemma run_puts vs tr s :
  wf s → closed (chan_of s) = false → calls tr = EPut <$> vs →
  ∃ s', run pool_methods tr s = Ok ([], s') ∧ wf s' ∧ same_pool s s' ∧
        closed (chan_of s') = false ∧ made s' = made s ∧
        buf (chan_of s') = buf (chan_of s) ++ take (room s) vs ∧
        discarded s' = discarded s ++ drop (room s) vs.
Proof.
  revert tr s. induction vs as [|v vs IH]; intros tr s Hwf Hc Htr.
  { destruct (run_sched tr s Hwf Htr) as (s' & Hs' & ? & ? & Hch & ? & ?).
    exists s'. rewrite Hch, take_nil, drop_nil, !(right_id_L [] (++)).
    by split_and!. }
  simpl in Htr.
  destruct (calls_cons_inv _ _ _ Htr) as (gs & tr' & -> & Hgs & Htr' & _).
  destruct (run_sched_then gs (EPut v :: tr') s Hwf Hgs)
    as (s0 & Hwf0 & Hsame0 & Hch0 & Hm0 & Hd0 & ->).
  assert (closed (chan_of s0) = false) as Hc0 by (by rewrite Hch0).
  destruct (pool_Put_wf v s0 Hwf0 Hc0)
    as (s1 & Hs1 & Hwf1 & Hsame1 & Hc1 & Hm1 & _ & _ & Hput).
  destruct (IH tr' s1 Hwf1 Hc1 Htr')
    as (s2 & Hs2 & Hwf2 & Hsame2 & Hc2 & Hm2 & Hb2 & Hd2).
  exists s2. rewrite run_cons. simpl. rewrite Hs1. simpl. rewrite Hs2. simpl.
  split_and!; eauto using same_pool_trans; try congruence.
  - rewrite Hb2. unfold room in *. destruct Hsame1 as (_ & _ & Hcap1).
    rewrite <- Hch0. destruct Hwf0 as [[Hlen0 _ _ _] _].
    unfold len in *. case_bool_decide as Hlt.
    + destruct Hput as (-> & _ & _). rewrite Hcap1, length_app. simpl.
      replace (Z.to_nat (cap (chan_of s0) - Z.of_nat (length (buf (chan_of s0)))))
        with (S (Z.to_nat (cap (chan_of s0) -
                Z.of_nat (length (buf (chan_of s0)) + 1)))) by lia.
      simpl. by rewrite <- (assoc_L (++)).
    + destruct Hput as (-> & _ & _). rewrite Hcap1.
      replace (Z.to_nat (cap (chan_of s0) - Z.of_nat (length (buf (chan_of s0)))))
        with 0 by lia.
      by rewrite !take_0.
  - rewrite Hd2. unfold room in *. destruct Hsame1 as (_ & _ & Hcap1).
    rewrite <- Hch0, <- Hd0. destruct Hwf0 as [[Hlen0 _ _ _] _].
    unfold len in *. case_bool_decide as Hlt.
    + destruct Hput as (-> & -> & _). rewrite Hcap1, length_app. simpl.
      replace (Z.to_nat (cap (chan_of s0) - Z.of_nat (length (buf (chan_of s0)))))
        with (S (Z.to_nat (cap (chan_of s0) -
                Z.of_nat (length (buf (chan_of s0)) + 1)))) by lia.
      done.
    + destruct Hput as (-> & -> & _). rewrite Hcap1.
      replace (Z.to_nat (cap (chan_of s0) - Z.of_nat (length (buf (chan_of s0)))))
        with 0 by lia.
      rewrite !drop_0. by rewrite <- (assoc_L (++)).
Qed.

(** The same calls with no goroutine step in between: every [Put] returns
    while the goroutines it spawned are all still pending. *)
Lemma run_puts_quiet vs s :
  wf s → closed (chan_of s) = false →
  ∃ s', run pool_methods (EPut <$> vs) s = Ok ([], s') ∧
        world s' = world s ∧ destroyed s' = destroyed s ∧
        goroutines s' =
          goroutines s ++
          (if pool_close (st_pool s) is Some _ then drop (room s) vs else []).
Proof.
  revert s. induction vs as [|v vs IH]; intros s Hwf Hc.
  { exists s. rewrite drop_nil. split_and!; try done.
    by destruct (pool_close (st_pool s)); rewrite (right_id_L [] (++)). }
  destruct (pool_Put_wf v s Hwf Hc)
    as (s1 & Hs1 & Hwf1 & Hsame1 & Hc1 & _ & Hw1 & Hx1 & Hput).
  destruct (IH s1 Hwf1 Hc1) as (s2 & Hs2 & Hw2 & Hx2 & Hg2).
  exists s2. rewrite fmap_cons, run_cons. simpl. rewrite Hs1. simpl.
  rewrite Hs2. simpl. split_and!; try congruence.
  rewrite Hg2. destruct Hsame1 as (_ & -> & Hcap1). unfold room.
  rewrite Hcap1. destruct Hwf as [[Hlen _ _ _] _]. unfold len in *.
  case_bool_decide as Hlt.
  - destruct Hput as (-> & _ & ->). rewrite length_app. simpl.
    replace (Z.to_nat (cap (chan_of s) - Z.of_nat (length (buf (chan_of s)))))
      with (S (Z.to_nat (cap (chan_of s) -
              Z.of_nat (length (buf (chan_of s)) + 1)))) by lia.
    done.
  - destruct Hput as (-> & _ & ->).
    replace (Z.to_nat (cap (chan_of s) - Z.of_nat (length (buf (chan_of s)))))
      with 0 by lia.
    rewrite !drop_0.
    destruct (pool_close (st_pool s)); by rewrite <- (assoc_L (++)).
Qed.

(** [Get] calls served from the store, under any interleaving with the
    goroutines: the queued instances come out oldest first and the
    constructor is not called. *)
Lemma run_gets_stored j tr s :
  wf s → calls tr = replicate j EGet → j ≤ length (buf (chan_of s)) →
  ∃ s', run pool_methods tr s = Ok (take j (buf (chan_of s)), s') ∧
        wf s' ∧ same_pool s s' ∧
        closed (chan_of s') = closed (chan_of s) ∧
        buf (chan_of s') = drop j (buf (chan_of s)) ∧
        made s' = made s ∧ discarded s' = discarded s.
Proof.
  revert tr s. induction j as [|j IH]; intros tr s Hwf Htr Hj.
  { destruct (run_sched tr s Hwf Htr) as (s' & Hs' & ? & ? & Hch & ? & ?).
    exists s'. rewrite Hch, take_0, drop_0. by split_and!. }
  simpl in Htr.
  destruct (calls_cons_inv _ _ _ Htr) as (gs & tr' & -> & Hgs & Htr' & _).
  destruct (run_sched_then gs (EGet :: tr') s Hwf Hgs)
    as (s0 & Hwf0 & Hsame0 & Hch0 & Hm0 & Hd0 & ->).
  rewrite <- Hch0 in *.
  destruct (buf (chan_of s0)) as [|x rest] eqn:Hb; [simpl in Hj; lia|].
  pose proof (pool_Get_stored _ _ _ Hb) as Hget.
  destruct (pool_Get_wf _ _ _ Hwf0 Hget) as (Hwf1 & Hsame1 & Hc1 & _ & Hd1 & _).
  set (s1 := set_chan _ s0) in *.
  destruct (IH tr' s1 Hwf1 Htr') as (s2 & Hs2 & Hwf2 & Hsame2 & Hc2 & Hb2 & Hm2 & Hd2).
  { simpl in *. lia. }
  exists s2. rewrite run_cons. simpl. rewrite Hget. simpl. rewrite Hs2. simpl.
  assert (made s1 = made s0) as Hm1 by done.
  split_and!; eauto using same_pool_trans; congruence.
Qed.

(** [Get] calls on an empty, open store: each one takes the default branch. *)
Lemma run_gets_empty j tr s :
  wf s → calls tr = replicate j EGet →
  buf (chan_of s) = [] → closed (chan_of s) = false →
  ∃ outs s', run pool_methods tr s = Ok (outs, s') ∧
        wf s' ∧ same_pool s s' ∧ chan_of s' = chan_of s ∧
        length outs = j ∧ discarded s' = discarded s ∧
        match pool_new (st_pool s) with
        | Some _ => made s' = made s ++ outs
        | None => made s' = made s ∧ outs = replicate j zero
        end.
Proof.
  revert tr s. induction j as [|j IH]; intros tr s Hwf Htr Hb Hc.
  { destruct (run_sched tr s Hwf Htr) as (s' & Hs' & ? & ? & Hch & ? & ?).
    exists [], s'. split_and!; try done.
    by destruct (pool_new (st_pool s)); rewrite ?(right_id_L [] (++)). }
  simpl in Htr.
  destruct (calls_cons_inv _ _ _ Htr) as (gs & tr' & -> & Hgs & Htr' & _).
  destruct (run_sched_then gs (EGet :: tr') s Hwf Hgs)
    as (s0 & Hwf0 & Hsame0 & Hch0 & Hm0 & Hd0 & ->).
  rewrite <- Hch0 in Hb, Hc. destruct Hsame0 as (Hn0 & Hsame0).
  rewrite <- Hn0, <- Hm0, <- Hd0, <- Hch0.
  destruct (pool_Get s0) as [v s1] eqn:Hget.
  destruct (pool_Get_wf _ _ _ Hwf0 Hget) as (Hwf1 & Hsame1 & Hc1 & _ & Hd1 & _).
  rewrite pool_Get_empty in Hget by done.
  destruct (maybeNew_frame _ _ _ Hget) as (Hp & _).
  assert (chan_of s1 = chan_of s0) as Hch1 by (unfold chan_of; by rewrite Hp).
  destruct (IH tr' s1 Hwf1 Htr')
    as (outs & s2 & Hs2 & Hwf2 & Hsame2 & Hch2 & Hlen & Hd2 & Hm2);
    [congruence..|].
  exists (v :: outs), s2. rewrite run_cons. simpl.
  rewrite pool_Get_empty by done. rewrite Hget. simpl. rewrite Hs2. simpl.
  split_and!; try congruence.
  { destruct Hsame1 as (? & ? & ?), Hsame2 as (? & ? & ?), Hsame0 as (? & ?).
    unfold same_pool. split_and!; congruence. }
  rewrite Hp in Hm2. unfold maybeNew in Hget.
  destruct (pool_new (st_pool s0)) as [f|].
  - destruct (f (world s0)) as [v' w']. injection Hget as <- <-.
    rewrite Hm2. simpl. by rewrite <- (assoc_L (++)).
  - injection Hget as <- <-. destruct Hm2 as [-> ->]. done.
Qed.

(** *** Waiting for the destructors *)

(** Running the oldest pending goroutine until none is left brings the wait
    group to zero, so [Wait] returns. *)
Lemma run_all_goroutines n s :
  wf s → length (goroutines s) = n →
  ∃ s', run pool_methods (replicate n (EGo 0)) s = Ok ([], s') ∧ wf s' ∧
        goroutines s' = [] ∧ wg_Wait (pool_wg (st_pool s')) = true.
Proof.
  revert s. induction n as [|n IH]; intros s Hwf Hn.
  { exists s. destruct Hwf as [Hwf Hcl]. pose proof (wf_wg _ Hwf) as Hwg.
    split_and!; try done.
    - by apply nil_length_inv.
    - unfold wg_Wait. apply bool_decide_eq_true_2. lia. }
  destruct (goroutines s) as [|v g] eqn:Hg; [done|].
  destruct Hwf as [Hwf Hcl].
  destruct (go_step_wf 0 s Hwf) as (s1 & Hs1 & Hwf1 & _ & Hch1 & _ & _ & Hgo).
  rewrite Hg in Hgo. simpl in Hgo. destruct Hgo as (Hg1 & _).
  destruct (IH s1) as (s2 & Hs2 & ? & ? & ?).
  { split; [done|by rewrite Hch1]. }
  { rewrite Hg1. simpl in Hn. lia. }
  exists s2. simpl. rewrite Hs1. simpl. rewrite Hs2. by split_and!.
Qed.

(** Once [Wait] has returned no goroutine is pending, and the destructor
    has run exactly once per discarded instance. *)
Lemma wf_waited s :
  wf_run s → wg_Wait (pool_wg (st_pool s)) = true →
  goroutines s = [] ∧
  if pool_close (st_pool s) is Some _
  then destroyed s ≡ₚ discarded s else destroyed s = [].
Proof.
  intros [Hlen Hwg Hnil Hacct] Hw. apply bool_decide_eq_true_1 in Hw.
  assert (goroutines s = []) as Hg by (apply nil_length_inv; lia).
  split; [done|]. destruct (pool_close (st_pool s)) as [f|].
  - rewrite <- Hacct by eauto. by rewrite Hg, (right_id_L [] (++)).
  - by apply Hnil.
Qed.

(** *** The world

    The pool acts on the world through [NewFunc] and [CloseFunc] only. *)
Lemma exec_world (Q : W → Prop) e s o s' :
  wf s → funcs_keep Q s → caller_keeps Q e →
  exec pool_methods e s = Ok (o, s') → Q (world s) → Q (world s').
Proof.
  intros Hwf [Hnew Hclose] He Hex HQ. destruct e as [|v| |i|f]; simpl in Hex.
  - destruct (pool_Get s) as [v s1] eqn:Hget. injection Hex as <- <-.
    unfold pool_Get in Hget. destruct (select_recv (chan_of s)) as [[x ch]|].
    { by injection Hget as <- <-. }
    unfold maybeNew in Hget. destruct (pool_new (st_pool s)) as [f|] eqn:Hf.
    + specialize (Hnew f eq_refl _ HQ). simpl in Hnew.
      destruct (f (world s)) as [x w]. by injection Hget as <- <-.
    + by injection Hget as <- <-.
  - destruct (closed (chan_of s)) eqn:Hc.
    { by rewrite pool_Put_closed in Hex. }
    destruct (pool_Put_wf v s Hwf Hc) as (s1 & Hs1 & _ & _ & _ & _ & Hw & _).
    rewrite Hs1 in Hex. injection Hex as <- <-. by rewrite Hw.
  - destruct (closed (chan_of s)) eqn:Hc.
    { by rewrite pool_Close_closed in Hex. }
    destruct (pool_Close_wf s Hwf Hc) as (s1 & Hs1 & _ & _ & _ & _ & _ & Hw & _).
    rewrite Hs1 in Hex. injection Hex as <- <-. by rewrite Hw.
  - destruct Hwf as [Hwf _].
    destruct (go_step_wf i s Hwf) as (s1 & Hs1 & _ & _ & _ & _ & _ & Hgo).
    rewrite Hs1 in Hex. injection Hex as <- <-.
    destruct (goroutines s !! i) as [v|].
    + destruct Hgo as (_ & _ & f & Hf & ->). by apply (Hclose f v).
    + by rewrite Hgo.
  - injection Hex as <- <-. simpl. by apply He.
Qed.

Lemma funcs_keep_same Q s s' : same_pool s s' → funcs_keep Q s → funcs_keep Q s'.
Proof. intros (Hn & Hc & _) [? ?]. split; rewrite ?Hn, ?Hc; done. Qed.

Lemma run_world (Q : W → Prop) tr s outs s' :
  wf s → funcs_keep Q s → Forall (caller_keeps Q) tr →
  run pool_methods tr s = Ok (outs, s') → Q (world s) → Q (world s').
Proof.
  revert s outs. induction tr as [|e tr IH]; intros s outs Hwf Hk Htr Hrun HQ.
  { by injection Hrun as <- <-. }
  apply Forall_cons in Htr as [He Htr]. rewrite run_cons in Hrun.
  destruct (exec pool_methods e s) as [[o s1]|] eqn:Hex; [|done].
  simpl in Hrun.
  destruct (run pool_methods tr s1) as [[os s2]|] eqn:Hr; [|done].
  injection Hrun as <- <-.
  destruct (exec_wf _ _ _ _ Hwf Hex) as (Hwf1 & Hsame1 & _).
  apply (IH s1 os Hwf1); [by eapply funcs_keep_same|done|done|].
  eapply exec_world; [| | |exact Hex|]; done.
Qed.

(** *** The resetting pool, as a caller of the pool it wraps *)
Lemma run_resetPool `{Resetter T W} P tr s :
  run (resetPool P) tr s = run P (tr ≫= unfold_reset) s.
Proof.
  revert s. induction tr as [|e tr IH]; intros s; [done|].
  rewrite bind_cons, run_cons, run_app.
  destruct e as [|v| |i|f]; simpl.
  - destruct (Get P s) as [v s1]. simpl. rewrite IH.
    by destruct (run P (tr ≫= unfold_reset) s1) as [[os s2]|].
  - destruct (Put P v _) as [s1|]; [|done]. simpl. rewrite IH.
    by destruct (run P (tr ≫= unfold_reset) s1) as [[os s2]|].
  - destruct (Close P s) as [s1|]; [|done]. simpl. rewrite IH.
    by destruct (run P (tr ≫= unfold_reset) s1) as [[os s2]|].
  - destruct (go_step i s) as [s1|]; [|done]. simpl. rewrite IH.
    by destruct (run P (tr ≫= unfold_reset) s1) as [[os s2]|].
  - rewrite IH. by destruct (run P (tr ≫= unfold_reset) _) as [[os s2]|].
Qed.

(** *** Fresh pools *)

Lemma run_open tr s outs s' :
  wf s → Forall (λ e, is_close e = false) tr →
  run pool_methods tr s = Ok (outs, s') →
  closed (chan_of s) = false → closed (chan_of s') = false.
Proof.
  revert s outs. induction tr as [|e tr IH]; intros s outs Hwf Htr Hrun Hc.
  { by injection Hrun as <- <-. }
  apply Forall_cons in Htr as [He Htr]. rewrite run_cons in Hrun.
  destruct (exec pool_methods e s) as [[o s1]|] eqn:Hex; [|done].
  simpl in Hrun.
  destruct (run pool_methods tr s1) as [[os s2]|] eqn:Hr; [|done].
  injection Hrun as <- <-.
  destruct (exec_wf _ _ _ _ Hwf Hex) as (Hwf1 & _ & _).
  apply (IH s1 os Hwf1 Htr Hr).
  destruct e as [|v| |i|f]; simpl in Hex; try done.
  - destruct (pool_Get s) as [v s0] eqn:Hget. injection Hex as <- <-.
    destruct (pool_Get_wf _ _ _ Hwf Hget) as (_ & _ & -> & _). done.
  - destruct (pool_Put_wf v s Hwf Hc) as (s0 & Hs0 & _ & _ & ? & _).
    rewrite Hs0 in Hex. by injection Hex as <- <-.
  - destruct Hwf as [Hwf _].
    destruct (go_step_wf i s Hwf) as (s0 & Hs0 & _ & _ & Hch & _).
    rewrite Hs0 in Hex. injection Hex as <- <-. by rewrite Hch.
  - by injection Hex as <- <-.
Qed.

(** What is known of a state reached from a fresh pool. *)
Lemma reached_wf size (opt : Options T W) P (p : pool T W) w tr outs s :
  NewPool size opt = Ok (P, p) → run P tr (boot p w) = Ok (outs, s) →
  P = pool_methods ∧ wf s ∧ cap (chan_of s) = size ∧ (0 ≤ size)%Z ∧
  pool_new (st_pool s) = NewFunc opt ∧ pool_close (st_pool s) = CloseFunc opt.
Proof.
  intros Hnew Hrun. destruct (NewPool_Ok _ _ _ _ Hnew) as (-> & Hsz & ->).
  destruct (run_wf _ _ _ _ (boot_wf size opt w (proj1 Hsz)) Hrun)
    as (Hwf & (Hn & Hc & Hcap) & _).
  split_and!; try done. lia.
Qed.

(** Once [Close] has been called the channel is closed, and empty. *)
Lemma after_Close size (opt : Options T W) P (p : pool T W) w tr1 tr2 outs s :
  NewPool size opt = Ok (P, p) →
  run P (tr1 ++ EClose :: tr2) (boot p w) = Ok (outs, s) →
  P = pool_methods ∧ wf s ∧
  closed (chan_of s) = true ∧ buf (chan_of s) = [].
Proof.
  intros Hnew Hrun.
  destruct (reached_wf _ _ _ _ _ _ _ _ Hnew Hrun) as (-> & Hwf & _).
  rewrite run_app in Hrun.
  destruct (run pool_methods tr1 (boot p w)) as [[o1 s1]|] eqn:Hr1; [|done].
  destruct (reached_wf _ _ _ _ _ _ _ _ Hnew Hr1) as (_ & Hwf1 & _).
  simpl in Hrun.
  destruct (pool_Close s1) as [s2|] eqn:Hcl; [|done]. simpl in Hrun.
  destruct (run pool_methods tr2 s2) as [[o2 s3]|] eqn:Hr2; [|done].
  simpl in Hrun. injection Hrun as <- <-.
  destruct (closed (chan_of s1)) eqn:Hc1.
  { by rewrite pool_Close_closed in Hcl. }
  destruct (pool_Close_wf s1 Hwf1 Hc1) as (s2' & Hs2 & Hwf2 & _ & Hc2 & _).
  rewrite Hcl in Hs2. injection Hs2 as <-.
  destruct (run_wf _ _ _ _ Hwf2 Hr2) as (_ & _ & Hmono).
  split_and!; try done; [by apply Hmono|]. apply Hwf. by apply Hmono.
Qed.

(** [Close] on an open pool, and what [Wait] guarantees afterwards. *)
Lemma Close_then_Wait s :
  wf s → closed (chan_of s) = false →
  ∃ s1, pool_Close s = Ok s1 ∧ wf s1 ∧ buf (chan_of s1) = [] ∧
        ∀ sch outs s2,
          calls sch = [] → run pool_methods sch s1 = Ok (outs, s2) →
          wg_Wait (pool_wg (st_pool s2)) = true →
          buf (chan_of s2) = [] ∧
          if pool_close (st_pool s) is Some _
          then destroyed s2 ≡ₚ discarded s ++ buf (chan_of s)
          else destroyed s2 = [].
Proof.
  intros Hwf Hc.
  destruct (pool_Close_wf s Hwf Hc)
    as (s1 & Hs1 & Hwf1 & (_ & Hcl1 & _) & _ & Hb1 & _ & _ & _ & Hd1 & _).
  exists s1. split_and!; try done.
  intros sch outs s2 Hsch Hrun Hwait.
  destruct (run_sched sch s1 Hwf1 Hsch)
    as (s2' & Hs2 & Hwf2 & (_ & Hcl2 & _) & Hch2 & _ & Hd2).
  rewrite Hs2 in Hrun. injection Hrun as <- <-.
  destruct (wf_waited s2' (proj1 Hwf2) Hwait) as [_ Hacct].
  rewrite Hch2. split; [done|].
  rewrite Hcl2, Hcl1 in Hacct. destruct (pool_close (st_pool s)); [|done].
  by rewrite Hacct, Hd2, Hd1.
Qed.

(** Executions made of one kind of event. *)
Lemma calls_replicate_go n i :
  calls (replicate n (EGo i : event T W)) = [].
Proof.
  induction n as [|n IH]; [done|]. simpl. unfold calls in *.
  by rewrite filter_cons_False.
Qed.

Lemma calls_replicate_get n :
  calls (replicate n (EGet : event T W)) = replicate n EGet.
Proof.
  induction n as [|n IH]; [done|]. simpl. unfold calls in *.
  rewrite filter_cons_True by done. by rewrite IH.
Qed.

Lemma calls_puts vs : calls (EPut <$> vs : list (event T W)) = EPut <$> vs.
Proof.
  induction vs as [|v vs IH]; [done|]. simpl. unfold calls in *.
  rewrite filter_cons_True by done. f_equal. apply IH.
Qed.

(** [Wait] does return: running the pending goroutines, oldest first,
    brings the wait group to zero, and then the destructor has been called
    once for each instance that was discarded. *)
Lemma run_to_Wait s :
  wf s →
  ∃ s', run pool_methods (replicate (length (goroutines s)) (EGo 0)) s =
          Ok ([], s') ∧
        wf s' ∧ same_pool s s' ∧
        wg_Wait (pool_wg (st_pool s')) = true ∧ goroutines s' = [] ∧
        chan_of s' = chan_of s ∧ made s' = made s ∧
        discarded s' = discarded s ∧
        if pool_close (st_pool s) is Some _
        then destroyed s' ≡ₚ discarded s else destroyed s' = [].
Proof.
  intros Hwf.
  destruct (run_all_goroutines _ s Hwf eq_refl) as (s' & Hs' & Hwf' & Hg & Hw).
  destruct (run_sched (replicate (length (goroutines s)) (EGo 0)) s Hwf
              (calls_replicate_go _ _))
    as (s'' & Hs'' & _ & Hsame & Hch & Hm & Hd).
  rewrite Hs' in Hs''. injection Hs'' as <-.
  exists s'. split_and!; try done.
  destruct (wf_waited s' (proj1 Hwf') Hw) as [_ Hfin].
  destruct Hsame as (_ & Hcl & _). rewrite Hcl in Hfin.
  destruct (pool_close (st_pool s)); [|done]. by rewrite Hfin, Hd.
Qed.

(** The same execution, in full: each goroutine applies the destructor to
    its instance, in the order in which the goroutines were spawned. *)
Lemma run_in_order n s f :
  wf s → pool_close (st_pool s) = Some f → length (goroutines s) = n →
  ∃ s', run pool_methods (replicate n (EGo 0)) s = Ok ([], s') ∧
        destroyed s' = destroyed s ++ goroutines s ∧
        world s' = foldl (λ w v, f v w) (world s) (goroutines s) ∧
        goroutines s' = [] ∧ wg_Wait (pool_wg (st_pool s')) = true.
Proof.
  revert s. induction n as [|n IH]; intros s Hwf Hf Hn.
  { apply nil_length_inv in Hn. exists s. rewrite Hn, (right_id_L [] (++)).
    split_and!; try done. destruct Hwf as [[_ Hwg _ _] _].
    unfold wg_Wait. apply bool_decide_eq_true_2. by rewrite Hwg, Hn. }
  destruct (goroutines s) as [|v g] eqn:Hg; [done|].
  destruct (go_step_wf 0 s (proj1 Hwf))
    as (s1 & Hs1 & Hwf1 & (_ & Hcl1 & _) & Hch1 & _ & _ & Hgo).
  rewrite Hg in Hgo. simpl in Hgo.
  destruct Hgo as (Hg1 & Hx1 & f' & Hf' & Hw1).
  assert (f' = f) as -> by congruence.
  destruct (IH s1) as (s2 & Hs2 & Hx2 & Hw2 & Hg2 & Hwait).
  { split; [done|]. rewrite Hch1. apply Hwf. }
  { congruence. }
  { rewrite Hg1. simpl in Hn. lia. }
  exists s2. simpl. rewrite Hs1. simpl. rewrite Hs2. simpl.
  rewrite Hx2, Hw2, Hx1, Hw1, Hg1. split_and!; try done.
  by rewrite <- (assoc_L (++)).
Qed.

(** ** The properties of the specification *)

(** C1.  For a pool made by [NewPool size opt] (so [0 ≤ size]), the store
    never holds more than [size] instances, whatever the callers and the
    goroutines do.  After any number of [Put] calls on the fresh pool the
    store holds the first [size] instances put, that is [min] of the number
    of calls and the capacity; the [Get] calls that follow, up to that many,
    return these instances, oldest first, and the constructor is never
    called. *)
Theorem C1_store_bounded size (opt : Options T W) P (p : pool T W) w :
  NewPool size opt = Ok (P, p) →
  (0 ≤ size)%Z ∧
  (∀ tr outs s,
     run P tr (boot p w) = Ok (outs, s) → (len (chan_of s) ≤ size)%Z) ∧
  (∀ vs tr,
     calls tr = EPut <$> vs →
     ∃ s, run P tr (boot p w) = Ok ([], s) ∧
          buf (chan_of s) = take (Z.to_nat size) vs ∧
          length (buf (chan_of s)) = length vs `min` Z.to_nat size ∧
          ∀ j tr',
            j ≤ length (buf (chan_of s)) → calls tr' = replicate j EGet →
            ∃ s', run P tr' s = Ok (take j vs, s') ∧ made s' = []).
Proof.
  intros Hnew. destruct (NewPool_Ok _ _ _ _ Hnew) as (-> & Hsz & ->).
  pose proof (boot_wf size opt w (proj1 Hsz)) as Hwf0.
  split; [lia|]. split.
  - intros tr outs s Hrun.
    destruct (run_wf _ _ _ _ Hwf0 Hrun) as ([[Hlen _ _ _] _] & (_ & _ & Hcap) & _).
    simpl in Hcap. by rewrite <- Hcap.
  - intros vs tr Htr.
    destruct (run_puts vs tr _ Hwf0 eq_refl Htr)
      as (s & Hs & Hwf & _ & _ & Hm & Hb & _).
    assert (room (boot (MkPool (Chan [] size false) (NewFunc opt)
                               (CloseFunc opt) 0%Z) w) = Z.to_nat size) as Hroom.
    { unfold room, len. simpl. lia. }
    rewrite Hroom in Hb. simpl in Hb, Hm.
    exists s. split_and!; try done.
    { rewrite Hb, length_take. lia. }
    intros j tr' Hj Htr'.
    destruct (run_gets_stored j tr' s Hwf Htr' Hj) as (s' & Hs' & _ & _ & _ & _ & Hm' & _).
    exists s'. rewrite Hm', Hm. split; [|done].
    rewrite Hs', Hb. rewrite Hb, length_take in Hj.
    by rewrite take_take, Nat.min_l by lia.
Qed.

(** C2.  In a state of a pool that has not been closed, [Get] never fails.
    When the store is not empty it removes the oldest stored instance and
    returns it, and touches nothing else.  When the store is empty and a
    constructor was supplied it calls the constructor, once, and returns
    its result.  When the store is empty and there is no constructor it
    returns the zero value and changes nothing. *)
Theorem C2_Get size (opt : Options T W) P (p : pool T W) w tr outs s :
  NewPool size opt = Ok (P, p) →
  run P tr (boot p w) = Ok (outs, s) →
  closed (chan_of s) = false →
  ∃ v s',
    exec P EGet s = Ok (Some v, s') ∧ Get P s = (v, s') ∧
    match buf (chan_of s) with
    | x :: rest => v = x ∧ s' = set_chan (Chan rest size false) s
    | [] =>
        match NewFunc opt with
        | Some f =>
            v = (f (world s)).1 ∧
            s' = log_made v (set_world (f (world s)).2 s)
        | None => v = zero ∧ s' = s
        end
    end.
Proof.
  intros Hnew Hrun Hc.
  destruct (reached_wf _ _ _ _ _ _ _ _ Hnew Hrun) as (-> & Hwf & Hcap & _ & Hn & _).
  simpl. destruct (pool_Get s) as [v s'] eqn:Hget. exists v, s'.
  split_and!; try done.
  destruct (buf (chan_of s)) as [|x rest] eqn:Hb.
  - rewrite pool_Get_empty in Hget by done. rewrite <- Hn.
    destruct (pool_new (st_pool s)) as [f|] eqn:Hf.
    + rewrite (maybeNew_Some _ _ Hf) in Hget. by injection Hget as <- <-.
    + rewrite (maybeNew_None _ Hf) in Hget. by injection Hget as <- <-.
  - rewrite (pool_Get_stored _ _ _ Hb), Hcap, Hc in Hget.
    by injection Hget as <- <-.
Qed.

(** C3.  In a state of a pool that has not been closed, [Put] is never an
    error.  When the store has room the instance is queued, behind the
    instances already stored, and a later [Get] returns it.  When the store
    is full it is left as it is and the instance is discarded: with a
    destructor exactly one goroutine is spawned for it and the wait group is
    incremented by one; without a destructor nothing else happens. *)
Theorem C3_Put size (opt : Options T W) P (p : pool T W) w tr outs s v :
  NewPool size opt = Ok (P, p) →
  run P tr (boot p w) = Ok (outs, s) →
  closed (chan_of s) = false →
  ∃ s',
    Put P v s = Ok s' ∧
    if bool_decide (len (chan_of s) < size)%Z
    then
      s' = set_chan (Chan (buf (chan_of s) ++ [v]) size false) s ∧
      ∀ tr', calls tr' = replicate (S (length (buf (chan_of s)))) EGet →
             ∃ s'', run P tr' s' = Ok (buf (chan_of s) ++ [v], s'')
    else
      match CloseFunc opt with
      | Some _ =>
          s' = spawn v (set_wg (pool_wg (st_pool s) + 1)%Z (log_discarded v s))
      | None => s' = log_discarded v s
      end.
Proof.
  intros Hnew Hrun Hc.
  destruct (reached_wf _ _ _ _ _ _ _ _ Hnew Hrun) as (-> & Hwf & Hcap & _ & _ & Hcl).
  simpl. rewrite <- Hcap, <- Hcl.
  destruct (pool_Put_wf v s Hwf Hc) as (s' & Hs' & Hwf' & _ & _ & _ & _ & _ & Hput).
  exists s'. split; [done|]. case_bool_decide as Hlt.
  - rewrite pool_Put_room in Hs' by done. injection Hs' as <-.
    split; [done|]. intros tr' Htr'.
    destruct (run_gets_stored (S (length (buf (chan_of s)))) tr' _ Hwf' Htr')
      as (s'' & Hs'' & _).
    { simpl. rewrite length_app. simpl. lia. }
    exists s''. rewrite Hs''. simpl. f_equal. f_equal.
    apply take_ge. rewrite length_app. simpl. lia.
  - rewrite pool_Put_full in Hs' by (done || lia).
    destruct (pool_close (st_pool s)) as [f|] eqn:Hf.
    + rewrite (maybeClose_Some _ _ f) in Hs'; [congruence|done|].
      by apply wf_run_wg_nonneg, Hwf.
    + rewrite maybeClose_None in Hs' by done. congruence.
Qed.

(** C4.  After any execution of [Get] and [Put] calls on a pool, [Close]
    succeeds and leaves the store empty.  [Wait] on the returned wait group
    does return, and in every state in which it has returned the store is
    empty and the destructor, when there is one, has been called exactly
    once for each instance that was in the store when [Close] was called and
    exactly once for each instance discarded before: the log of destructor
    calls is a permutation of these instances.  Without a destructor nothing
    is destroyed. *)
Theorem C4_Close_Wait size (opt : Options T W) P (p : pool T W) w tr outs s :
  NewPool size opt = Ok (P, p) →
  Forall (λ e, is_close e = false) tr →
  run P tr (boot p w) = Ok (outs, s) →
  ∃ s1,
    Close P s = Ok s1 ∧ buf (chan_of s1) = [] ∧
    (∃ s2, run P (replicate (length (goroutines s1)) (EGo 0)) s1 = Ok ([], s2) ∧
           wg_Wait (pool_wg (st_pool s2)) = true) ∧
    ∀ sch outs' s2,
      calls sch = [] → run P sch s1 = Ok (outs', s2) →
      wg_Wait (pool_wg (st_pool s2)) = true →
      buf (chan_of s2) = [] ∧
      if CloseFunc opt is Some _
      then destroyed s2 ≡ₚ discarded s ++ buf (chan_of s)
      else destroyed s2 = [].
Proof.
  intros Hnew Htr Hrun.
  destruct (reached_wf _ _ _ _ _ _ _ _ Hnew Hrun) as (-> & Hwf & _ & Hsz & _ & Hcl).
  destruct (NewPool_Ok _ _ _ _ Hnew) as (_ & _ & ->).
  pose proof (run_open _ _ _ _ (boot_wf size opt w Hsz) Htr Hrun eq_refl) as Hc.
  destruct (pool_Close_wf s Hwf Hc)
    as (s1 & Hs1 & Hwf1 & (_ & Hcl1 & _) & _ & Hb1 & _ & _ & _ & Hd1 & _).
  exists s1. split_and!; try done.
  - destruct (run_all_goroutines _ s1 Hwf1 eq_refl) as (s2 & ? & _ & _ & ?).
    by exists s2.
  - intros sch outs' s2 Hsch Hrun2 Hwait.
    destruct (run_sched sch s1 Hwf1 Hsch) as (s2' & Hs2 & Hwf2 & (_ & Hcl2 & _) & Hch2 & _ & Hd2).
    rewrite Hs2 in Hrun2. injection Hrun2 as <- <-.
    destruct (wf_waited s2' (proj1 Hwf2) Hwait) as [_ Hacct].
    rewrite Hch2. split; [done|].
    rewrite Hcl2, Hcl1, Hcl in Hacct. destruct (CloseFunc opt); [|done].
    by rewrite Hacct, Hd2, Hd1.
Qed.

(** C5.  On a fresh pool of capacity [C], [C + k] calls of [Put] store the
    first [C] instances and discard the last [k], one discard per call.
    With a destructor each discarded instance has exactly one goroutine of
    its own, pending or completed, under every interleaving; the pending
    goroutines do run to completion, and once they have run the destructor
    has been called exactly [k] times, on these [k] instances (distinct
    when the instances put are distinct).  Without a destructor no
    goroutine is spawned and nothing is destroyed.  No [Put] waits for a
    destructor: the execution in which all [C + k] calls return before any
    goroutine has run exists, and leaves the [k] goroutines pending and the
    world untouched; when these goroutines run afterwards, the destructor
    is applied to the [k] discarded instances, one after the other. *)
Theorem C5_overflow C k vs (opt : Options T W) P (p : pool T W) w :
  NewPool C opt = Ok (P, p) →
  length vs = Z.to_nat C + k →
  (∀ tr,
     calls tr = EPut <$> vs →
     ∃ s, run P tr (boot p w) = Ok ([], s) ∧
          buf (chan_of s) = take (Z.to_nat C) vs ∧
          discarded s = drop (Z.to_nat C) vs ∧ length (discarded s) = k ∧
          (if CloseFunc opt is Some _
           then destroyed s ++ goroutines s ≡ₚ drop (Z.to_nat C) vs ∧
                pool_wg (st_pool s) = Z.of_nat (length (goroutines s)) ∧
                (NoDup vs → NoDup (destroyed s ++ goroutines s))
           else destroyed s = [] ∧ goroutines s = [] ∧
                pool_wg (st_pool s) = 0%Z) ∧
          (∀ sch outs s',
             calls sch = [] → run P sch s = Ok (outs, s') →
             wg_Wait (pool_wg (st_pool s')) = true →
             if CloseFunc opt is Some _
             then destroyed s' ≡ₚ drop (Z.to_nat C) vs ∧
                  length (destroyed s') = k
             else destroyed s' = []) ∧
          (∃ s', run P (replicate (length (goroutines s)) (EGo 0)) s =
                   Ok ([], s') ∧
                 wg_Wait (pool_wg (st_pool s')) = true ∧
                 goroutines s' = [] ∧
                 if CloseFunc opt is Some _
                 then destroyed s' ≡ₚ drop (Z.to_nat C) vs ∧
                      length (destroyed s') = k
                 else destroyed s' = [])) ∧
  (∃ s, run P (EPut <$> vs) (boot p w) = Ok ([], s) ∧
        destroyed s = [] ∧ world s = w ∧
        goroutines s =
          (if CloseFunc opt is Some _ then drop (Z.to_nat C) vs else []) ∧
        ∃ s', run P (replicate (length (goroutines s)) (EGo 0)) s =
                Ok ([], s') ∧
              wg_Wait (pool_wg (st_pool s')) = true ∧
              goroutines s' = [] ∧
              match CloseFunc opt with
              | Some f =>
                  destroyed s' = drop (Z.to_nat C) vs ∧
                  length (destroyed s') = k ∧
                  world s' = foldl (λ w v, f v w) w (drop (Z.to_nat C) vs)
              | None => destroyed s' = [] ∧ world s' = w
              end).
Proof.
  intros Hnew Hlen. destruct (NewPool_Ok _ _ _ _ Hnew) as (-> & Hsz & ->).
  pose proof (boot_wf C opt w (proj1 Hsz)) as Hwf0.
  set (s0 := boot _ w) in *.
  assert (room s0 = Z.to_nat C) as Hroom by (unfold room, len; simpl; lia).
  split.
  - intros tr Htr.
    destruct (run_puts vs tr s0 Hwf0 eq_refl Htr)
      as (s & Hs & Hwf & (_ & Hcl & _) & _ & _ & Hb & Hd).
    rewrite Hroom in Hb, Hd. simpl in Hb, Hd, Hcl.
    exists s. split_and!; try done.
    + rewrite Hd, length_drop. lia.
    + destruct Hwf as [[_ Hwg Hnil Hacct] _]. rewrite Hcl in Hnil, Hacct.
      destruct (CloseFunc opt) as [f|].
      * assert (destroyed s ++ goroutines s ≡ₚ drop (Z.to_nat C) vs) as Hp
          by (rewrite <- Hd; eauto).
        split_and!; try done. intros Hnd. rewrite Hp.
        rewrite <- (take_drop (Z.to_nat C) vs) in Hnd.
        by apply NoDup_app in Hnd as (_ & _ & ?).
      * destruct Hnil as [Hg Hx]; [done|]. by rewrite Hwg, Hg, Hx.
    + intros sch outs s' Hsch Hrun Hwait.
      destruct (run_sched sch s Hwf Hsch) as (s1 & Hs1 & Hwf1 & (_ & Hcl1 & _) & _ & _ & Hd1).
      rewrite Hs1 in Hrun. injection Hrun as <- <-.
      destruct (wf_waited s1 (proj1 Hwf1) Hwait) as [_ Hacct].
      rewrite Hcl1, Hcl in Hacct. destruct (CloseFunc opt); [|done].
      rewrite Hacct, Hd1, Hd, length_drop. split; [done|lia].
    + destruct (run_to_Wait s Hwf)
        as (s' & Hs' & _ & _ & Hw & Hg & _ & _ & _ & Hfin).
      exists s'. split_and!; try done. rewrite Hcl in Hfin.
      destruct (CloseFunc opt); [|done].
      rewrite Hfin, Hd, length_drop. split; [done|lia].
  - destruct (run_puts_quiet vs s0 Hwf0 eq_refl) as (s & Hs & Hw & Hx & Hg).
    destruct (run_puts vs (EPut <$> vs) s0 Hwf0 eq_refl (calls_puts vs))
      as (s_ & Hs_ & Hwf & (_ & Hcl & _) & _).
    rewrite Hs in Hs_. injection Hs_ as <-.
    exists s. rewrite Hroom in Hg. simpl in Hg, Hcl, Hw, Hx.
    split_and!; try done.
    destruct (CloseFunc opt) as [f|] eqn:Hf.
    + destruct (run_in_order _ s f Hwf Hcl eq_refl)
        as (s' & Hs' & Hx' & Hw' & Hg' & Hwait).
      exists s'. rewrite Hx', Hw', Hx, Hw. split_and!; try done.
      * rewrite Hg. simpl. rewrite length_drop. lia.
      * by rewrite Hg.
    + destruct (run_to_Wait s Hwf)
        as (s' & Hs' & _ & _ & Hwait & Hg' & _ & _ & _ & Hfin).
      exists s'. rewrite Hcl in Hfin. split_and!; try done.
      rewrite Hg in Hs'. simpl in Hs'. injection Hs' as <-. done.
Qed.

(** C7, as the code has it.  [Get] succeeds in every state, and so does
    every goroutine step.  [Put] and [Close] succeed in every state in which
    the pool has not been closed, which is every state reached without a
    call of [Close].  On a pool of capacity 0 without constructor [Get]
    returns the zero value and changes nothing, in every state. *)
Theorem C7_total_until_Close size (opt : Options T W) P (p : pool T W) w tr outs s :
  NewPool size opt = Ok (P, p) →
  run P tr (boot p w) = Ok (outs, s) →
  is_Ok (exec P EGet s) ∧
  (∀ i, is_Ok (exec P (EGo i) s)) ∧
  (closed (chan_of s) = false →
   (∀ v, is_Ok (exec P (EPut v) s)) ∧ is_Ok (exec P EClose s)) ∧
  (Forall (λ e, is_close e = false) tr → closed (chan_of s) = false) ∧
  (size = 0%Z → NewFunc opt = None → Get P s = (zero, s)).
Proof.
  intros Hnew Hrun.
  destruct (reached_wf _ _ _ _ _ _ _ _ Hnew Hrun) as (-> & Hwf & Hcap & Hsz & Hn & _).
  split_and!.
  - simpl. destruct (pool_Get s) as [v s']. by eexists.
  - intros i. simpl.
    destruct (go_step_wf i s (proj1 Hwf)) as (s' & -> & _). by eexists.
  - intros Hc. split.
    + intros v. simpl. destruct (pool_Put_wf v s Hwf Hc) as (s' & -> & _).
      by eexists.
    + simpl. destruct (pool_Close_wf s Hwf Hc) as (s' & -> & _). by eexists.
  - intros Htr. destruct (NewPool_Ok _ _ _ _ Hnew) as (_ & _ & ->).
    by apply (run_open _ _ _ _ (boot_wf size opt w Hsz) Htr Hrun).
  - intros -> Hnone. simpl.
    assert (buf (chan_of s) = []) as Hb.
    { destruct Hwf as [[Hlen _ _ _] _]. unfold len in Hlen.
      apply nil_length_inv. lia. }
    destruct (closed (chan_of s)) eqn:Hc.
    + by apply pool_Get_closed.
    + rewrite pool_Get_empty by done. apply maybeNew_None. congruence.
Qed.

(** C9.  In every state reached after a call of [Close], [Get] returns the
    zero value and changes nothing: the constructor is not called, whether
    one was supplied or not. *)
Theorem C9_Get_after_Close size (opt : Options T W) P (p : pool T W) w tr1 tr2 outs s :
  NewPool size opt = Ok (P, p) →
  run P (tr1 ++ EClose :: tr2) (boot p w) = Ok (outs, s) →
  Get P s = (zero, s) ∧ exec P EGet s = Ok (Some zero, s).
Proof.
  intros Hnew Hrun.
  destruct (after_Close _ _ _ _ _ _ _ _ _ Hnew Hrun) as (-> & _ & Hc & Hb).
  simpl. by rewrite pool_Get_closed.
Qed.

(** C10.  In every state reached after a call of [Close], [Put] panics with
    "send on closed channel" and [Close] panics with "close of closed
    channel". *)
Theorem C10_panics_after_Close size (opt : Options T W) P (p : pool T W) w tr1 tr2 outs s :
  NewPool size opt = Ok (P, p) →
  run P (tr1 ++ EClose :: tr2) (boot p w) = Ok (outs, s) →
  (∀ v, Put P v s = Panic "send on closed channel") ∧
  Close P s = Panic "close of closed channel" ∧
  (∀ v tr3, run P ((tr1 ++ EClose :: tr2) ++ EPut v :: tr3) (boot p w) =
            Panic "send on closed channel") ∧
  (∀ tr3, run P ((tr1 ++ EClose :: tr2) ++ EClose :: tr3) (boot p w) =
          Panic "close of closed channel").
Proof.
  intros Hnew Hrun.
  destruct (after_Close _ _ _ _ _ _ _ _ _ Hnew Hrun) as (-> & _ & Hc & Hb).
  split_and!.
  - intros v. by apply pool_Put_closed.
  - by apply pool_Close_closed.
  - intros v tr3. rewrite run_app, Hrun. simpl. by rewrite pool_Put_closed.
  - intros tr3. rewrite run_app, Hrun. simpl. by rewrite pool_Close_closed.
Qed.

(** C8, as the code has it.  On a fresh pool of capacity 100 with
    constructor and destructor, under every interleaving with the
    goroutines: 200 [Get] calls construct 200 instances [vs]; 200 [Put]
    calls of these store the first 100 and discard the last 100; 100 [Get]
    calls return the 100 stored instances, discard nothing and leave the
    store empty.  When [Close] is called at this point it spawns nothing;
    [Wait] does return, and when it has returned the destructor has been
    called 100 times in all, on the discarded instances only.  When the 100
    instances are [Put] back first, in any order, they are stored again;
    [Close] then spawns a goroutine for each of these 100, [Wait] does
    return, and when it has returned the destructor has been called exactly
    once on each of the 200 instances. *)
Theorem C8_TestPool (opt : Options T W) P (p : pool T W) w f g :
  NewPool 100 opt = Ok (P, p) →
  NewFunc opt = Some f → CloseFunc opt = Some g →
  ∀ tr1, calls tr1 = replicate 200 EGet →
  ∃ vs s1,
    run P tr1 (boot p w) = Ok (vs, s1) ∧ length vs = 200 ∧ made s1 = vs ∧
    ∀ tr2, calls tr2 = EPut <$> vs →
    ∃ s2,
      run P tr2 s1 = Ok ([], s2) ∧ buf (chan_of s2) = take 100 vs ∧
      discarded s2 = drop 100 vs ∧
      ∀ tr3, calls tr3 = replicate 100 EGet →
      ∃ s3,
        run P tr3 s2 = Ok (take 100 vs, s3) ∧ buf (chan_of s3) = [] ∧
        discarded s3 = drop 100 vs ∧ made s3 = vs ∧
        (∃ s4, Close P s3 = Ok s4 ∧
           goroutines s4 = goroutines s3 ∧
           (∃ s5, run P (replicate (length (goroutines s4)) (EGo 0)) s4 =
                    Ok ([], s5) ∧
                  wg_Wait (pool_wg (st_pool s5)) = true ∧
                  destroyed s5 ≡ₚ drop 100 vs ∧ length (destroyed s5) = 100) ∧
           ∀ sch outs s5,
             calls sch = [] → run P sch s4 = Ok (outs, s5) →
             wg_Wait (pool_wg (st_pool s5)) = true →
             destroyed s5 ≡ₚ drop 100 vs ∧ length (destroyed s5) = 100) ∧
        ∀ back tr4,
          back ≡ₚ take 100 vs → calls tr4 = EPut <$> back →
          ∃ s4 s5,
            run P tr4 s3 = Ok ([], s4) ∧ buf (chan_of s4) = back ∧
            discarded s4 = drop 100 vs ∧
            destroyed s4 ++ goroutines s4 ≡ₚ drop 100 vs ∧
            Close P s4 = Ok s5 ∧ buf (chan_of s5) = [] ∧
            goroutines s5 = goroutines s4 ++ back ∧
            (∃ s6, run P (replicate (length (goroutines s5)) (EGo 0)) s5 =
                     Ok ([], s6) ∧
                   wg_Wait (pool_wg (st_pool s6)) = true ∧
                   destroyed s6 ≡ₚ vs ∧ length (destroyed s6) = 200) ∧
            ∀ sch outs s6,
              calls sch = [] → run P sch s5 = Ok (outs, s6) →
              wg_Wait (pool_wg (st_pool s6)) = true →
              destroyed s6 ≡ₚ vs ∧ length (destroyed s6) = 200.
Proof.
  intros Hnew Hf Hg tr1 Htr1.
  destruct (NewPool_Ok _ _ _ _ Hnew) as (-> & Hsz & ->).
  pose proof (boot_wf 100 opt w (proj1 Hsz)) as Hwf0.
  set (s0 := boot _ w) in *.
  destruct (run_gets_empty 200 tr1 s0 Hwf0 Htr1 eq_refl eq_refl)
    as (vs & s1 & Hs1 & Hwf1 & (_ & Hcl1 & _) & Hch1 & Hlen & Hd1 & Hm1).
  simpl in Hm1, Hd1, Hcl1. rewrite Hf in Hm1. simpl in Hm1.
  exists vs, s1. split_and!; try done.
  intros tr2 Htr2.
  destruct (run_puts vs tr2 s1 Hwf1)
    as (s2 & Hs2 & Hwf2 & (_ & Hcl2 & Hcap2) & Hc2 & Hm2 & Hb2 & Hd2);
    [by rewrite Hch1|done|].
  assert (room s1 = 100) as Hroom1 by (unfold room, len; by rewrite Hch1).
  rewrite Hroom1, Hch1 in Hb2. rewrite Hroom1, Hd1 in Hd2. simpl in Hb2, Hd2.
  exists s2. split_and!; try done.
  intros tr3 Htr3.
  destruct (run_gets_stored 100 tr3 s2 Hwf2 Htr3)
    as (s3 & Hs3 & Hwf3 & (_ & Hcl3 & Hcap3) & Hc3 & Hb3 & Hm3 & Hd3).
  { rewrite Hb2, length_take. lia. }
  rewrite Hb2 in Hs3, Hb3. rewrite take_take in Hs3. simpl in Hs3.
  rewrite drop_ge in Hb3 by (rewrite length_take; lia).
  assert (pool_close (st_pool s3) = Some g) as Hcl by congruence.
  assert (closed (chan_of s3) = false) as Hopen by congruence.
  exists s3. split_and!; try congruence.
  - destruct (Close_then_Wait s3 Hwf3 Hopen) as (s4 & Hs4 & Hwf4 & _ & Hwait).
    assert (∀ sch outs s5,
              calls sch = [] → run pool_methods sch s4 = Ok (outs, s5) →
              wg_Wait (pool_wg (st_pool s5)) = true →
              destroyed s5 ≡ₚ drop 100 vs ∧ length (destroyed s5) = 100)
      as Hcount.
    { intros sch outs s5 Hsch Hrun Hw.
      destruct (Hwait sch outs s5 Hsch Hrun Hw) as [_ Hperm].
      rewrite Hcl, Hb3, (right_id_L [] (++)), Hd3, Hd2 in Hperm.
      split; [done|]. rewrite Hperm, length_drop. lia. }
    exists s4. split_and!; try done.
    + destruct (pool_Close_wf s3 Hwf3 Hopen)
        as (s4' & Hs4' & _ & _ & _ & _ & _ & _ & _ & _ & Hg4).
      simpl in Hs4. rewrite Hs4 in Hs4'. injection Hs4' as <-.
      by rewrite Hg4, Hcl, Hb3, (right_id_L [] (++)).
    + destruct (run_to_Wait s4 Hwf4) as (s5 & Hs5 & _ & _ & Hw & _).
      exists s5. destruct (Hcount _ _ _ (calls_replicate_go _ _) Hs5 Hw).
      by split_and!.
  - intros back tr4 Hback Htr4.
    assert (length back = 100) as Hlb.
    { rewrite Hback, length_take. lia. }
    assert (room s3 = 100) as Hroom3.
    { unfold room, len. rewrite Hb3, Hcap3, Hcap2, Hch1. done. }
    destruct (run_puts back tr4 s3 Hwf3 Hopen Htr4)
      as (s4 & Hs4 & Hwf4 & (_ & Hcl4 & _) & Hc4 & _ & Hb4 & Hd4).
    rewrite Hroom3, Hb3, take_ge in Hb4 by lia.
    rewrite Hroom3, drop_ge, (right_id_L [] (++)), Hd3, Hd2 in Hd4 by lia.
    simpl in Hb4.
    destruct (Close_then_Wait s4 Hwf4 Hc4) as (s5 & Hs5 & Hwf5 & Hb5 & Hwait).
    assert (∀ sch outs s6,
              calls sch = [] → run pool_methods sch s5 = Ok (outs, s6) →
              wg_Wait (pool_wg (st_pool s6)) = true →
              destroyed s6 ≡ₚ vs ∧ length (destroyed s6) = 200)
      as Hcount.
    { intros sch outs s6 Hsch Hrun Hw.
      destruct (Hwait sch outs s6 Hsch Hrun Hw) as [_ Hperm].
      rewrite Hcl4, Hcl, Hb4, Hd4, Hback in Hperm.
      assert (destroyed s6 ≡ₚ vs) as Hall.
      { rewrite Hperm, (comm (++)). by rewrite take_drop. }
      split; [done|]. by rewrite Hall. }
    exists s4, s5. split_and!; try done.
    + rewrite <- Hd4. apply Hwf4. rewrite Hcl4, Hcl. by eexists.
    + destruct (pool_Close_wf s4 Hwf4 Hc4)
        as (s5' & Hs5' & _ & _ & _ & _ & _ & _ & _ & _ & Hg5).
      simpl in Hs5. rewrite Hs5 in Hs5'. injection Hs5' as <-.
      by rewrite Hg5, Hcl4, Hcl, Hb4.
    + destruct (run_to_Wait s5 Hwf5) as (s6 & Hs6 & _ & _ & Hw & _).
      exists s6. destruct (Hcount _ _ _ (calls_replicate_go _ _) Hs6 Hw).
      by split_and!.
Qed.

End Theory.

(** ** The resetting pool *)

Section Resetting.

Context {T : Type} `{GoType T} {W : Type} `{Resetter T W}.

(** The logical content of an instance in a world, and the content of an
    instance that has just been reset. *)
Context {C : Type} (content : T → W → C) (pristine : C).

Hypothesis Reset_pristine : ∀ v w, content v (Reset v w) = pristine.

Lemma NewResetterPool_Ok size (opt : Options T W) P (p : pool T W) :
  NewResetterPool size opt = Ok (P, p) →
  P = resetPool pool_methods ∧ NewPool size opt = Ok (pool_methods, p).
Proof.
  unfold NewResetterPool. destruct (NewPool size opt) as [[P0 p0]|] eqn:Hnew; [|done].
  simpl. intros [= <- <-]. by destruct (NewPool_Ok _ _ _ _ Hnew) as (-> & _).
Qed.

Lemma unfold_reset_keeps (Q : W → Prop) (tr : list (event T W)) :
  (∀ u, keeps Q (Reset u)) →
  Forall (caller_keeps Q) tr → Forall (caller_keeps Q) (tr ≫= unfold_reset).
Proof.
  intros HR Htr. apply Forall_bind. eapply Forall_impl; [exact Htr|].
  intros e He. destruct e as [|u| | |f]; simpl; repeat constructor; try done.
  apply HR.
Qed.

(** C6.  For a pool made by [NewResetterPool], [Put(v)] is [v.Reset()]
    followed, on the same thread, by the [Put] of the wrapped pool, which is
    the one [NewPool] makes from the same arguments; [Get] and [Close] are
    those of the wrapped pool.  Hence, whatever was done to an instance [v]
    before it is [Put], its content is the pristine one when a later [Get]
    returns it, as long as the constructor, the destructor, the [Reset] of
    other instances and the callers leave the content of the pooled [v]
    alone.  Nothing is said, or needed, about the capacity [v] retains. *)
Theorem C6_resetPool size (opt : Options T W) P (p : pool T W) w v :
  NewResetterPool size opt = Ok (P, p) →
  (∀ f, NewFunc opt = Some f →
        keeps (λ w, content v w = pristine) (λ w, (f w).2)) →
  (∀ f u, CloseFunc opt = Some f →
          keeps (λ w, content v w = pristine) (f u)) →
  (∀ u, keeps (λ w, content v w = pristine) (Reset u)) →
  NewPool size opt = Ok (pool_methods, p) ∧
  (∀ u s, Put P u s = Put pool_methods u (set_world (Reset u (world s)) s)) ∧
  (∀ s, Get P s = Get pool_methods s) ∧
  (∀ s, Close P s = Close pool_methods s) ∧
  ∀ tr0 outs0 s0 s1 tr outs s2 s3,
    run P tr0 (boot p w) = Ok (outs0, s0) →
    Put P v s0 = Ok s1 →
    Forall (caller_keeps (λ w, content v w = pristine)) tr →
    run P tr s1 = Ok (outs, s2) →
    Get P s2 = (v, s3) →
    content v (world s3) = pristine.
Proof.
  intros Hnew Hkn Hkc Hkr. set (Q := λ w, content v w = pristine) in *.
  destruct (NewResetterPool_Ok _ _ _ _ Hnew) as (-> & Hnew0).
  split_and!; try done.
  intros tr0 outs0 s0 s1 tr outs s2 s3 Hrun0 Hput Htr Hrun Hget.
  rewrite run_resetPool in Hrun0, Hrun. simpl in Hput, Hget.
  destruct (reached_wf _ _ _ _ _ _ _ _ Hnew0 Hrun0) as (_ & Hwf0 & _ & _ & Hn0 & Hc0).
  set (s0' := set_world (Reset v (world s0)) s0) in *.
  assert (wf s0') as Hwf0' by (by apply (wf_ext s0)).
  assert (funcs_keep Q s0') as Hk0.
  { split; simpl; rewrite ?Hn0, ?Hc0; eauto. }
  assert (exec pool_methods (EPut v) s0' = Ok (None, s1)) as Hex1.
  { simpl. by rewrite Hput. }
  destruct (exec_wf _ _ _ _ Hwf0' Hex1) as (Hwf1 & Hsame1 & _).
  assert (Q (world s1)) as HQ1.
  { eapply exec_world; [exact Hwf0'|exact Hk0| |exact Hex1|]; [done|].
    apply Reset_pristine. }
  pose proof (funcs_keep_same _ _ _ Hsame1 Hk0) as Hk1.
  destruct (run_wf _ _ _ _ Hwf1 Hrun) as (Hwf2 & Hsame2 & _).
  assert (Q (world s2)) as HQ2.
  { eapply run_world; [exact Hwf1|exact Hk1| |exact Hrun|exact HQ1].
    by apply unfold_reset_keeps. }
  pose proof (funcs_keep_same _ _ _ Hsame2 Hk1) as Hk2.
  assert (exec pool_methods EGet s2 = Ok (Some v, s3)) as Hex3.
  { simpl. by rewrite Hget. }
  eapply (exec_world Q); [exact Hwf2|exact Hk2| |exact Hex3|exact HQ2]. done.
Qed.

End Resetting.

(** ** Further properties of the code *)

Section More.

Context {T : Type} `{GoType T} {W : Type}.
Implicit Types (s : state T W) (v : T) (P : Pool T W) (e : event T W)
  (tr : list (event T W)) (opt : Options T W) (p : pool T W).

(** X2.  Round trip.  On an open pool with room, [Put] followed by [Get]
    hands out the oldest instance of the store extended by the one put and
    keeps the others in order; when the store was empty, [Get] returns the
    very instance put and the state is exactly what it was before. *)
Theorem Put_Get_roundtrip size opt P p w tr outs s v :
  NewPool size opt = Ok (P, p) →
  run P tr (boot p w) = Ok (outs, s) →
  closed (chan_of s) = false →
  (len (chan_of s) < size)%Z →
  ∃ s1 x s2,
    Put P v s = Ok s1 ∧ Get P s1 = (x, s2) ∧
    x :: buf (chan_of s2) = buf (chan_of s) ++ [v] ∧
    made s2 = made s ∧ world s2 = world s ∧ discarded s2 = discarded s ∧
    (buf (chan_of s) = [] → x = v ∧ s2 = s).
Proof.
  intros Hnew Hrun Hc Hlt.
  destruct (reached_wf _ _ _ _ _ _ _ _ Hnew Hrun) as (-> & Hwf & Hcap & _).
  simpl. rewrite <- Hcap in Hlt.
  rewrite (pool_Put_room v s Hc Hlt).
  set (s1 := set_chan _ s).
  destruct (buf (chan_of s) ++ [v]) as [|x rest] eqn:Hb.
  { by destruct (buf (chan_of s)). }
  assert (buf (chan_of s1) = x :: rest) as Hb1 by done.
  exists s1, x. eexists. split; [done|].
  split; [by apply pool_Get_stored|].
  split_and!; try done.
  intros Hnil. rewrite Hnil in Hb. injection Hb as <- <-.
  split; [done|]. subst s1. clear -Hnil Hc.
  destruct s as [[[b c cl] ? ? ?] ? ? ? ? ?]. simpl in *. by subst.
Qed.

(** X3.  Capacity zero.  The channel of a pool of size 0 never holds
    anything.  While the pool is open every [Put] takes the default branch,
    so the instance is discarded (and a goroutine spawned for it when there
    is a destructor), and every [Get] takes the default branch, so it is
    [maybeNew]. *)
Theorem zero_capacity opt P p w tr outs s v :
  NewPool 0 opt = Ok (P, p) →
  run P tr (boot p w) = Ok (outs, s) →
  buf (chan_of s) = [] ∧
  (closed (chan_of s) = false →
   Get P s = maybeNew s ∧
   ∃ s', Put P v s = Ok s' ∧ buf (chan_of s') = [] ∧
         discarded s' = discarded s ++ [v] ∧
         goroutines s' =
           goroutines s ++ (if CloseFunc opt is Some _ then [v] else [])).
Proof.
  intros Hnew Hrun.
  destruct (reached_wf _ _ _ _ _ _ _ _ Hnew Hrun) as (-> & Hwf & Hcap & _ & _ & Hcl).
  assert (buf (chan_of s) = []) as Hb.
  { destruct Hwf as [[Hlen _ _ _] _]. unfold len in Hlen.
    apply nil_length_inv. lia. }
  split; [done|]. intros Hc. simpl. split; [by apply pool_Get_empty|].
  destruct (pool_Put_wf v s Hwf Hc) as (s' & Hs' & _ & _ & _ & _ & _ & _ & Hput).
  rewrite bool_decide_eq_false_2 in Hput by (unfold len; rewrite Hb, Hcap; simpl; lia).
  destruct Hput as (Hb' & Hd' & Hg'). exists s'.
  rewrite <- Hcl, Hb', Hb. by split_and!.
Qed.

(** X4.  Accounting.  In every state reached from a fresh pool the wait
    group counts the goroutines spawned and not yet run, so that no
    goroutine ever drives it below zero.  With a destructor, the instances
    handed to [maybeClose] are exactly those destroyed so far together
    with those whose goroutine is pending: none is destroyed twice, none
    is forgotten.  Without a destructor nothing is ever spawned or
    destroyed and [Wait] never blocks.  In any case running the pending
    goroutines lets [Wait] return, with nothing more discarded. *)
Theorem accounting size opt P p w tr outs s :
  NewPool size opt = Ok (P, p) →
  run P tr (boot p w) = Ok (outs, s) →
  pool_wg (st_pool s) = Z.of_nat (length (goroutines s)) ∧
  (if CloseFunc opt is Some _
   then destroyed s ++ goroutines s ≡ₚ discarded s
   else goroutines s = [] ∧ destroyed s = [] ∧
        wg_Wait (pool_wg (st_pool s)) = true) ∧
  ∃ s', run P (replicate (length (goroutines s)) (EGo 0)) s = Ok ([], s') ∧
        wg_Wait (pool_wg (st_pool s')) = true ∧
        discarded s' = discarded s ∧ chan_of s' = chan_of s ∧
        if CloseFunc opt is Some _
        then destroyed s' ≡ₚ discarded s else destroyed s' = [].
Proof.
  intros Hnew Hrun.
  destruct (reached_wf _ _ _ _ _ _ _ _ Hnew Hrun) as (-> & Hwf & _ & _ & _ & Hcl).
  pose proof Hwf as [[_ Hwg Hnil Hacct] _]. rewrite Hcl in Hnil, Hacct.
  split; [done|]. split.
  - destruct (CloseFunc opt); [by eauto|].
    destruct Hnil as [Hg Hx]; [done|]. split_and!; try done.
    rewrite Hwg, Hg. done.
  - destruct (run_all_goroutines _ s Hwf eq_refl) as (s' & Hs' & Hwf' & _ & Hw).
    destruct (run_sched (replicate (length (goroutines s)) (EGo 0)) s Hwf)
      as (s'' & Hs'' & _ & (_ & Hcl' & _) & Hch & _ & Hd).
    { clear. induction (length (goroutines s)) as [|n IH]; [done|].
      simpl. unfold calls in *. by rewrite filter_cons_False. }
    rewrite Hs' in Hs''. injection Hs'' as <-.
    exists s'. split_and!; try done.
    destruct (wf_waited s' (proj1 Hwf') Hw) as [_ Hfin].
    rewrite Hcl', Hcl in Hfin. destruct (CloseFunc opt); [|done].
    by rewrite Hfin, Hd.
Qed.

(** Where the value of a [Get] comes from: the store, the constructor, or
    nowhere (the zero value). *)
Lemma pool_Get_cases s v s' :
  pool_Get s = (v, s') →
  discarded s' = discarded s ∧
  ((buf (chan_of s) = v :: buf (chan_of s') ∧ made s' = made s) ∨
   (buf (chan_of s) = [] ∧ buf (chan_of s') = [] ∧
    ((made s' = made s ++ [v] ∧ closed (chan_of s) = false ∧
      is_Some (pool_new (st_pool s))) ∨
     (made s' = made s ∧ v = zero ∧
      (closed (chan_of s) = true ∨ pool_new (st_pool s) = None))))).
Proof.
  intros Hget. destruct (buf (chan_of s)) as [|x rest] eqn:Hb.
  - destruct (closed (chan_of s)) eqn:Hc.
    { rewrite pool_Get_closed in Hget by done. injection Hget as <- <-.
      split; [done|]. right. rewrite Hb. split_and!; try done.
      right. split_and!; try done. by left. }
    rewrite pool_Get_empty in Hget by done.
    destruct (pool_new (st_pool s)) as [f|] eqn:Hf.
    + rewrite (maybeNew_Some _ _ Hf) in Hget. injection Hget as <- <-.
      split; [done|]. right. simpl. unfold chan_of in *. simpl.
      split_and!; try done. left. by split_and!.
    + rewrite (maybeNew_None _ Hf) in Hget. injection Hget as <- <-.
      split; [done|]. right. rewrite Hb. split_and!; try done.
      right. split_and!; try done. by right.
  - rewrite (pool_Get_stored _ _ _ Hb) in Hget. injection Hget as <- <-.
    split; [done|]. left. by split.
Qed.

Lemma conservation_from tr s0 outs s :
  wf s0 → run pool_methods tr s0 = Ok (outs, s) →
  ∃ taken zs d m,
    discarded s = discarded s0 ++ d ∧ made s = made s0 ++ m ∧
    buf (chan_of s0) ++ puts_of tr ≡ₚ buf (chan_of s) ++ d ++ taken ∧
    outs ≡ₚ taken ++ m ++ zs ∧ Forall (λ z, z = zero) zs ∧
    (is_Some (pool_new (st_pool s0)) → closed (chan_of s0) = false →
     Forall (λ e, is_close e = false) tr → zs = []).
Proof.
  revert s0 outs. induction tr as [|e tr IH]; intros s0 outs Hwf Hrun.
  { injection Hrun as <- <-. exists [], [], [], []. simpl.
    rewrite !(right_id_L [] (++)). split_and!; try done. }
  rewrite run_cons in Hrun.
  destruct (exec pool_methods e s0) as [[o s1]|] eqn:Hex; [|done].
  simpl in Hrun.
  destruct (run pool_methods tr s1) as [[os s2]|] eqn:Hr; [|done].
  injection Hrun as <- <-.
  destruct (exec_wf _ _ _ _ Hwf Hex) as (Hwf1 & (Hn1 & _ & _) & _).
  destruct (IH s1 os Hwf1 Hr) as (taken & zs & d & m & Hd & Hm & Hp & Ho & Hz & Hzs).
  assert (closed (chan_of s0) = false → is_close e = false →
          closed (chan_of s1) = false) as Hopen.
  { intros Hc He. apply (run_open [e] s0 (from_option (λ v, [v]) [] o) s1 Hwf).
    - constructor; [done|constructor].
    - simpl. rewrite Hex. simpl. by rewrite (right_id_L [] (++)).
    - done. }
  assert (is_Some (pool_new (st_pool s0)) → closed (chan_of s0) = false →
          Forall (λ e, is_close e = false) (e :: tr) → zs = []) as Hzs'.
  { intros Hf Hc [He Htr]%Forall_cons. apply Hzs; [by rewrite Hn1|by apply Hopen|done]. }
  destruct e as [|v| |i|f]; simpl in Hex.
  - destruct (pool_Get s0) as [v s1'] eqn:Hget. injection Hex as <- <-.
    destruct (pool_Get_cases _ _ _ Hget) as (Hd1 & [[Hb Hm1]|(Hb & Hb1 & [(Hm1 & _)|(Hm1 & -> & Hwhy)])]).
    + exists (v :: taken), zs, d, m. rewrite Hd, Hm, Hd1, Hm1.
      split_and!; try done.
      * rewrite Hb. simpl. rewrite Hp. solve_Permutation.
      * simpl. by rewrite Ho.
    + exists taken, zs, d, (v :: m). rewrite Hd, Hm, Hd1, Hm1.
      split_and!; try done.
      * by rewrite <- (assoc_L (++)).
      * rewrite Hb. rewrite Hb1 in Hp. done.
      * simpl. rewrite Ho. solve_Permutation.
    + exists taken, (zero :: zs), d, m. rewrite Hd, Hm, Hd1, Hm1.
      split_and!; try done.
      * rewrite Hb. rewrite Hb1 in Hp. done.
      * simpl. rewrite Ho. solve_Permutation.
      * by constructor.
      * intros Hf Hc _. destruct Hwhy as [?|Hnone]; [congruence|].
        rewrite Hnone in Hf. by destruct Hf.
  - destruct (closed (chan_of s0)) eqn:Hc.
    { by rewrite pool_Put_closed in Hex. }
    destruct (pool_Put_wf v s0 Hwf Hc) as (s1' & Hs1 & _ & _ & _ & Hm1 & _ & _ & Hput).
    rewrite Hs1 in Hex. injection Hex as <- <-.
    case_bool_decide; destruct Hput as (Hb1 & Hd1 & _).
    + exists taken, zs, d, m. rewrite Hd, Hm, Hd1, Hm1.
      split_and!; try done.
      rewrite Hb1 in Hp. simpl. rewrite <- Hp. solve_Permutation.
    + exists taken, zs, (v :: d), m. rewrite Hd, Hm, Hd1, Hm1.
      split_and!; try done.
      * by rewrite <- (assoc_L (++)).
      * rewrite Hb1 in Hp. simpl.
        rewrite <- Permutation_middle, Hp. solve_Permutation.
  - destruct (closed (chan_of s0)) eqn:Hc.
    { by rewrite pool_Close_closed in Hex. }
    destruct (pool_Close_wf s0 Hwf Hc)
      as (s1' & Hs1 & _ & _ & _ & Hb1 & Hm1 & _ & _ & Hd1 & _).
    rewrite Hs1 in Hex. injection Hex as <- <-.
    exists taken, zs, (buf (chan_of s0) ++ d), m. rewrite Hd, Hm, Hd1, Hm1.
    split_and!; try done.
    + by rewrite <- (assoc_L (++)).
    + rewrite Hb1 in Hp. simpl in *. rewrite Hp. solve_Permutation.
  - destruct (go_step_wf i s0 (proj1 Hwf)) as (s1' & Hs1 & _ & _ & Hch & Hm1 & Hd1 & _).
    rewrite Hs1 in Hex. injection Hex as <- <-.
    exists taken, zs, d, m. rewrite Hd, Hm, Hd1, Hm1. rewrite Hch in Hp.
    by split_and!.
  - injection Hex as <- <-. exists taken, zs, d, m. by split_and!.
Qed.

(** X5.  Conservation.  In every execution from a fresh pool, the instances
    put are exactly those still in the store, those discarded and those
    taken from the store by a [Get]; and the values the [Get] calls
    returned are exactly the instances taken from the store, the instances
    constructed, and zero values.  So no instance is lost, duplicated or
    handed out twice, and every constructed instance went to a caller.
    With a constructor, and as long as [Close] has not been called, no
    [Get] returns a zero value of the pool's making. *)
Theorem conservation size opt P p w tr outs s :
  NewPool size opt = Ok (P, p) →
  run P tr (boot p w) = Ok (outs, s) →
  ∃ taken zs,
    puts_of tr ≡ₚ buf (chan_of s) ++ discarded s ++ taken ∧
    outs ≡ₚ taken ++ made s ++ zs ∧
    Forall (λ z, z = zero) zs ∧
    (is_Some (NewFunc opt) → Forall (λ e, is_close e = false) tr → zs = []).
Proof.
  intros Hnew Hrun. destruct (NewPool_Ok _ _ _ _ Hnew) as (-> & Hsz & ->).
  destruct (conservation_from _ _ _ _ (boot_wf size opt w (proj1 Hsz)) Hrun)
    as (taken & zs & d & m & Hd & Hm & Hp & Ho & Hz & Hzs).
  simpl in *. subst d m. exists taken, zs. split_and!; try done.
  intros Hf Htr. by apply Hzs.
Qed.

(** X6.  What [Close] does before it returns.  On an open pool it closes
    and empties the channel and hands every stored instance to
    [maybeClose], oldest first: with a destructor one goroutine is spawned
    per stored instance and the wait group grows by their number; without
    one the wait group does not move.  [Close] itself runs neither the
    destructor nor the constructor: the world and the log of destructor
    calls are as before. *)
Theorem Close_effect size opt P p w tr outs s :
  NewPool size opt = Ok (P, p) →
  run P tr (boot p w) = Ok (outs, s) →
  closed (chan_of s) = false →
  ∃ s1,
    Close P s = Ok s1 ∧
    chan_of s1 = Chan [] size true ∧
    discarded s1 = discarded s ++ buf (chan_of s) ∧
    goroutines s1 =
      goroutines s ++ (if CloseFunc opt is Some _ then buf (chan_of s) else []) ∧
    pool_wg (st_pool s1) =
      (pool_wg (st_pool s) +
       if CloseFunc opt is Some _ then len (chan_of s) else 0)%Z ∧
    world s1 = world s ∧ made s1 = made s ∧ destroyed s1 = destroyed s.
Proof.
  intros Hnew Hrun Hc.
  destruct (reached_wf _ _ _ _ _ _ _ _ Hnew Hrun) as (-> & Hwf & Hcap & _ & _ & Hcl).
  destruct (pool_Close_wf s Hwf Hc)
    as (s1 & Hs1 & Hwf1 & (_ & _ & Hcap1) & Hc1 & Hb1 & Hm1 & Hw1 & Hx1 & Hd1 & Hg1).
  exists s1. rewrite Hcl in Hg1. split_and!; try done.
  - destruct (chan_of s1) as [b c cl]. simpl in *. congruence.
  - destruct Hwf as [[_ Hwg _ _] _], Hwf1 as [[_ Hwg1 _ _] _].
    rewrite Hwg1, Hwg, Hg1, length_app. unfold len.
    destruct (CloseFunc opt); simpl; lia.
Qed.

(** X7.  The pool acts on the world through [NewFunc] and [CloseFunc]
    only: a property of the world that these two and the callers' own code
    preserve holds after every execution.  In particular a pool without
    constructor and destructor never changes the world. *)
Theorem world_frame (Q : W → Prop) size opt P p w tr outs s :
  NewPool size opt = Ok (P, p) →
  run P tr (boot p w) = Ok (outs, s) →
  (∀ f, NewFunc opt = Some f → keeps Q (λ w, (f w).2)) →
  (∀ f v, CloseFunc opt = Some f → keeps Q (f v)) →
  Forall (caller_keeps Q) tr →
  Q w → Q (world s).
Proof.
  intros Hnew Hrun Hkn Hkc Htr HQ.
  destruct (NewPool_Ok _ _ _ _ Hnew) as (-> & Hsz & ->).
  eapply run_world; [exact (boot_wf size opt w (proj1 Hsz))| |exact Htr|exact Hrun|exact HQ].
  split; simpl; eauto.
Qed.

(** [Get] keeps the part of well-formedness that holds during [Close]. *)
Lemma pool_Get_run s v s' :
  wf_run s → pool_Get s = (v, s') →
  wf_run s' ∧ same_pool s s' ∧ closed (chan_of s') = closed (chan_of s).
Proof.
  intros Hwf Hget. destruct (buf (chan_of s)) as [|x rest] eqn:Hb.
  - destruct (closed (chan_of s)) eqn:Hc.
    + rewrite pool_Get_closed in Hget by done. injection Hget as <- <-.
      by split_and!.
    + rewrite pool_Get_empty in Hget by done.
      destruct (maybeNew_frame _ _ _ Hget) as (Hp & Hg & Hd & Hx).
      split; [by eapply wf_run_ext|].
      unfold same_pool, chan_of. rewrite Hp. by split_and!.
  - rewrite (pool_Get_stored _ _ _ Hb) in Hget. injection Hget as <- <-.
    destruct Hwf as [Hlen Hwg Hnil Hacct].
    split; [|by split_and!]. split; simpl; try done.
    unfold len in *. rewrite Hb in Hlen. simpl in *. lia.
Qed.

(** The range loop of [Close], one iteration at a time. *)
Lemma drain_S n s : drain (S n) s = drain 1 s ≫= drain n.
Proof.
  simpl. destruct (buf (chan_of s)) as [|x rest] eqn:Hb.
  - simpl. destruct n; simpl; by rewrite ?Hb.
  - by destruct (maybeClose x _).
Qed.

Lemma run_race_drain n s :
  run_race pool_methods (replicate n None) s = s' ← drain n s; Ok ([], s').
Proof.
  revert s. induction n as [|n IH]; intros s; [done|].
  rewrite drain_S. cbn [replicate run_race race_step].
  destruct (drain 1 s) as [s1|]; [|done]. cbn [mbind result_bind].
  rewrite IH. by destruct (drain n s1).
Qed.

Lemma race_from xs s1 outs s2 :
  wf_run s1 → closed (chan_of s1) = true →
  run_race pool_methods xs s1 = Ok (outs, s2) →
  ∃ taken zs d,
    buf (chan_of s1) ≡ₚ taken ++ d ++ buf (chan_of s2) ∧
    discarded s2 = discarded s1 ++ d ∧
    outs ≡ₚ taken ++ zs ∧ Forall (λ z, z = zero) zs ∧
    made s2 = made s1 ∧ wf_run s2 ∧ same_pool s1 s2.
Proof.
  revert s1 outs. induction xs as [|x xs IH]; intros s1 outs Hwf Hc Hrun.
  { injection Hrun as <- <-. exists [], [], []. simpl.
    rewrite (right_id_L [] (++)). by split_and!. }
  cbn [run_race] in Hrun.
  destruct (race_step pool_methods x s1) as [[o s1']|] eqn:Hst; [|done].
  cbn [mbind result_bind] in Hrun.
  destruct (run_race pool_methods xs s1') as [[os s2']|] eqn:Hr; [|done].
  injection Hrun as <- <-.
  assert (wf_run s1' ∧ same_pool s1 s1' ∧ closed (chan_of s1') = true ∧
          made s1' = made s1 ∧
          ∃ t z d1, buf (chan_of s1) = t ++ d1 ++ buf (chan_of s1') ∧
                    discarded s1' = discarded s1 ++ d1 ∧
                    from_option (λ v, [v]) [] o = t ++ z ∧
                    Forall (λ z, z = zero) z)
    as (Hwf' & Hsame' & Hc' & Hm' & t & z & d1 & Hb' & Hd' & Ho' & Hz').
  { destruct x as [e|];
      [destruct e as [|v| |i|f]; simpl in Hst|cbn [race_step] in Hst].
    - destruct (pool_Get s1) as [v s] eqn:Hget. injection Hst as <- <-.
      destruct (pool_Get_run _ _ _ Hwf Hget) as (? & ? & Hcs).
      rewrite Hcs.
      destruct (pool_Get_cases _ _ _ Hget)
        as (Hd1 & [[Hb Hm1]|(Hb & Hb1 & [(_ & ? & _)|(Hm1 & -> & _)])]);
        [|congruence|].
      + split_and!; try done. exists [v], [], []. simpl.
        rewrite (right_id_L [] (++)). by split_and!.
      + split_and!; try done. exists [], [zero], []. simpl.
        rewrite (right_id_L [] (++)), Hb, Hb1. split_and!; try done.
        by repeat constructor.
    - by rewrite pool_Put_closed in Hst.
    - by rewrite pool_Close_closed in Hst.
    - destruct (go_step_wf i s1 Hwf) as (s & Hs & ? & ? & Hch & ? & ? & _).
      rewrite Hs in Hst. injection Hst as <- <-. rewrite Hch.
      split_and!; try done. exists [], [], []. simpl.
      rewrite (right_id_L [] (++)). by split_and!.
    - injection Hst as <- <-. split_and!; try done.
      { by apply (wf_run_ext s1). }
      exists [], [], []. simpl. rewrite (right_id_L [] (++)). by split_and!.
    - destruct (drain_wf 1 s1 Hwf)
        as (s & Hs & ? & ? & Hcs & Hb & ? & _ & _ & Hd & _).
      rewrite Hs in Hst. injection Hst as <- <-. rewrite Hcs.
      split_and!; try done. exists [], [], (take 1 (buf (chan_of s1))).
      rewrite Hb. simpl. rewrite take_drop. by split_and!. }
  destruct (IH s1' os Hwf' Hc' Hr)
    as (taken & zs & d & Hb & Hd & Ho & Hz & Hm & Hwf2 & Hsame2).
  exists (t ++ taken), (z ++ zs), (d1 ++ d).
  rewrite Hd, Hd', Hm, Hm', Ho', Hb', Hb, Ho.
  split_and!; eauto using same_pool_trans.
  - solve_Permutation.
  - by rewrite (assoc_L (++)).
  - solve_Permutation.
  - by apply Forall_app.
Qed.

(** X10.  [Close] while other threads run.  [Close] is [close(p.c)]
    followed by one iteration of the range loop per stored instance.  In
    every execution in which [Get] calls of other threads, goroutines and
    callers' code run between the iterations, each instance that was in
    the store when the channel was closed is either still stored, or
    handed to [maybeClose] by the loop, or returned by exactly one [Get];
    the [Get] calls return nothing else but zero values, and never call
    the constructor.  The accounting of the destructor goroutines holds
    throughout. *)
Theorem Close_race size opt P p w tr outs0 s0 xs outs s2 :
  NewPool size opt = Ok (P, p) →
  run P tr (boot p w) = Ok (outs0, s0) →
  closed (chan_of s0) = false →
  run_race P xs (closing s0) = Ok (outs, s2) →
  Close P s0 =
    (r ← run_race P (replicate (length (buf (chan_of s0))) None) (closing s0);
     Ok r.2) ∧
  ∃ taken zs d,
    buf (chan_of s0) ≡ₚ taken ++ d ++ buf (chan_of s2) ∧
    discarded s2 = discarded s0 ++ d ∧
    outs ≡ₚ taken ++ zs ∧ Forall (λ z, z = zero) zs ∧
    made s2 = made s0 ∧
    pool_wg (st_pool s2) = Z.of_nat (length (goroutines s2)) ∧
    if CloseFunc opt is Some _
    then destroyed s2 ++ goroutines s2 ≡ₚ discarded s2
    else destroyed s2 = [] ∧ goroutines s2 = [].
Proof.
  intros Hnew Hrun Hc Hrace.
  destruct (reached_wf _ _ _ _ _ _ _ _ Hnew Hrun) as (-> & Hwf & _ & _ & _ & Hcl).
  split.
  - rewrite run_race_drain. simpl. unfold pool_Close, chan_close. rewrite Hc.
    simpl. fold (closing s0). by destruct (drain _ (closing s0)).
  - assert (wf_run (closing s0)) as Hwf1.
    { destruct Hwf as [[Hlen Hwg Hnil Hacct] _]. by split. }
    destruct (race_from _ _ _ _ Hwf1 eq_refl Hrace)
      as (taken & zs & d & Hb & Hd & Ho & Hz & Hm & Hwf2 & (_ & Hcl2 & _)).
    exists taken, zs, d. simpl in *. split_and!; try done.
    + by apply wf_wg.
    + destruct Hwf2 as [_ _ Hnil Hacct]. rewrite Hcl2, Hcl in Hnil, Hacct.
      destruct (CloseFunc opt); [by eauto|]. destruct Hnil as [? ?]; done.
Qed.

End More.

Section MoreResetting.

Context {T : Type} `{GoType T} {W : Type} `{Resetter T W}.
Implicit Types (s : state T W) (v : T) (e : event T W)
  (tr : list (event T W)) (opt : Options T W) (p : pool T W).

(** An event of the resetting pool, as an event of the pool it wraps. *)
Lemma exec_resetPool e s :
  exec (resetPool pool_methods) e s =
  exec pool_methods e
       (if e is EPut v then set_world (Reset v (world s)) s else s).
Proof. by destruct e. Qed.

(** X8.  A pool made by [NewResetterPool] behaves as the pool it wraps
    whose callers run [Reset] before each [Put], so it keeps that pool's
    invariants: the store never exceeds the size, the wait group counts the
    pending goroutines.  Whenever [Put(v)] returns, the pool was open, [v]
    has been reset, and [v] is in the store or has been discarded: an
    instance that overflows is reset before it goes to the destructor.
    Once the pool is closed, [Get] returns the zero value and changes
    nothing, [Close] panics, and no [Put] returns. *)
Theorem resetPool_inherits size opt P p w tr outs s :
  NewResetterPool size opt = Ok (P, p) →
  run P tr (boot p w) = Ok (outs, s) →
  run pool_methods (tr ≫= unfold_reset) (boot p w) = Ok (outs, s) ∧
  (len (chan_of s) ≤ size)%Z ∧
  pool_wg (st_pool s) = Z.of_nat (length (goroutines s)) ∧
  (∀ v s', Put P v s = Ok s' →
           closed (chan_of s) = false ∧
           world s' = Reset v (world s) ∧
           (v ∈ buf (chan_of s') ∨ v ∈ discarded s')) ∧
  (closed (chan_of s) = true →
   Get P s = (zero, s) ∧
   (∀ v, ¬ is_Ok (Put P v s)) ∧
   Close P s = Panic "close of closed channel").
Proof.
  intros Hnew Hrun.
  destruct (NewResetterPool_Ok _ _ _ _ Hnew) as (-> & Hnew0).
  rewrite run_resetPool in Hrun.
  destruct (reached_wf _ _ _ _ _ _ _ _ Hnew0 Hrun) as (_ & Hwf & Hcap & _).
  pose proof Hwf as [[Hlen Hwg _ _] Hcl].
  split_and!; try done.
  - by rewrite <- Hcap.
  - intros v s' Hput. simpl in Hput.
    set (s0 := set_world (Reset v (world s)) s) in *.
    assert (wf s0) as Hwf0 by (by apply (wf_ext s)).
    destruct (closed (chan_of s)) eqn:Hc.
    { by rewrite pool_Put_closed in Hput. }
    destruct (pool_Put_wf v s0 Hwf0 Hc)
      as (s1 & Hs1 & _ & _ & _ & _ & Hw & _ & Hcase).
    rewrite Hput in Hs1. injection Hs1 as <-.
    split_and!; try done.
    case_bool_decide; destruct Hcase as (Hb & Hd & _).
    + left. rewrite Hb. apply elem_of_app. right. by apply list_elem_of_singleton.
    + right. rewrite Hd. apply elem_of_app. right. by apply list_elem_of_singleton.
  - intros Hc. simpl. split_and!.
    + apply pool_Get_closed; auto.
    + intros v [s' Hs']. by rewrite pool_Put_closed in Hs'.
    + by apply pool_Close_closed.
Qed.

Lemma stored_pristine_from {C} (content : T → W → C) (pristine : C) opt tr s0 outs s :
  (∀ v w, content v (Reset v w) = pristine) →
  (∀ f u v, CloseFunc opt = Some f →
            keeps (λ w, content v w = pristine) (f u)) →
  (∀ u v, keeps (λ w, content v w = pristine) (Reset u)) →
  wf s0 → pool_close (st_pool s0) = CloseFunc opt →
  Forall (λ v, content v (world s0) = pristine) (buf (chan_of s0)) →
  hands_off (λ v w, content v w = pristine) (resetPool pool_methods) tr s0 →
  run (resetPool pool_methods) tr s0 = Ok (outs, s) →
  Forall (λ v, content v (world s) = pristine) (buf (chan_of s)).
Proof.
  intros Hlaw Hkc Hkr. revert s0 outs.
  induction tr as [|e tr IH]; intros s0 outs Hwf Hcl Hall Hoff Hrun.
  { by injection Hrun as <- <-. }
  rewrite run_cons in Hrun. cbn [hands_off] in Hoff. destruct Hoff as [Hcaller Hoff].
  destruct (exec (resetPool pool_methods) e s0) as [[o s1]|] eqn:Hex; [|done].
  simpl in Hrun.
  destruct (run (resetPool pool_methods) tr s1) as [[os s2]|] eqn:Hr; [|done].
  injection Hrun as <- <-.
  pose proof Hex as Hex0. rewrite exec_resetPool in Hex0.
  assert (wf (if e is EPut v then set_world (Reset v (world s0)) s0 else s0))
    as Hwf0 by (destruct e; try done; by apply (wf_ext s0)).
  destruct (exec_wf _ _ _ _ Hwf0 Hex0) as (Hwf1 & (_ & Hcl1 & _) & _).
  apply (IH s1 os Hwf1); try done.
  { rewrite Hcl1. by destruct e. }
  clear IH Hr Hoff Hex. destruct e as [|u| |i|f]; simpl in Hex0.
  - destruct (pool_Get s0) as [v s] eqn:Hget. injection Hex0 as <- <-.
    destruct (buf (chan_of s0)) as [|x rest] eqn:Hb.
    + destruct (pool_Get_cases _ _ _ Hget) as (_ & [[Hb' _]|(_ & -> & _)]);
        [congruence|constructor].
    + rewrite (pool_Get_stored _ _ _ Hb) in Hget. injection Hget as <- <-.
      simpl. by apply Forall_cons in Hall as [_ ?].
  - destruct (closed (chan_of s0)) eqn:Hc.
    { by rewrite pool_Put_closed in Hex0. }
    destruct (pool_Put_wf u _ Hwf0 Hc) as (s & Hs & _ & _ & _ & _ & Hw & _ & Hput).
    rewrite Hs in Hex0. injection Hex0 as <- <-. rewrite Hw. simpl.
    assert (Forall (λ v, content v (Reset u (world s0)) = pristine)
                   (buf (chan_of s0))) as Hall'.
    { eapply Forall_impl; [exact Hall|]. intros v Hv. by apply (Hkr u v). }
    case_bool_decide; destruct Hput as (-> & _).
    + simpl. apply Forall_app. split; [done|]. by repeat constructor.
    + done.
  - destruct (closed (chan_of s0)) eqn:Hc.
    { by rewrite pool_Close_closed in Hex0. }
    destruct (pool_Close_wf s0 Hwf Hc) as (s & Hs & _ & _ & _ & Hb & _).
    rewrite Hs in Hex0. injection Hex0 as <- <-. rewrite Hb. constructor.
  - destruct (go_step_wf i s0 (proj1 Hwf)) as (s & Hs & _ & _ & Hch & _ & _ & Hgo).
    rewrite Hs in Hex0. injection Hex0 as <- <-. rewrite Hch.
    destruct (goroutines s0 !! i) as [u|]; [|by rewrite Hgo].
    destruct Hgo as (_ & _ & f & Hf & ->).
    eapply Forall_impl; [exact Hall|]. intros v Hv.
    apply (Hkc f u v); [congruence|done].
  - injection Hex0 as <- <-. simpl.
    apply Forall_forall. intros v Hv. apply Hcaller; [done|].
    by eapply Forall_forall in Hall.
Qed.

(** X9.  In a pool made by [NewResetterPool] every stored instance is in
    its pristine state, at all times, and so is every instance a [Get]
    takes from the store.  This holds whatever the callers do to the
    instances they hold, as long as they keep their hands off the
    instances they have put back, and as long as the destructor and the
    [Reset] of one instance leave the content of the others alone; the
    constructor is not constrained, since it only runs when the store is
    empty. *)
Theorem stored_pristine {C} (content : T → W → C) (pristine : C)
    size opt P p w tr outs s :
  (∀ v w, content v (Reset v w) = pristine) →
  (∀ f u v, CloseFunc opt = Some f →
            keeps (λ w, content v w = pristine) (f u)) →
  (∀ u v, keeps (λ w, content v w = pristine) (Reset u)) →
  NewResetterPool size opt = Ok (P, p) →
  hands_off (λ v w, content v w = pristine) P tr (boot p w) →
  run P tr (boot p w) = Ok (outs, s) →
  Forall (λ v, content v (world s) = pristine) (buf (chan_of s)) ∧
  ∀ v s', buf (chan_of s) ≠ [] → Get P s = (v, s') →
          content v (world s') = pristine.
Proof.
  intros Hlaw Hkc Hkr Hnew Hoff Hrun.
  destruct (NewResetterPool_Ok _ _ _ _ Hnew) as (-> & Hnew0).
  destruct (NewPool_Ok _ _ _ _ Hnew0) as (_ & Hsz & ->).
  assert (Forall (λ v, content v (world s) = pristine) (buf (chan_of s))) as Hall.
  { apply (stored_pristine_from content pristine opt tr _ outs s Hlaw Hkc Hkr
             (boot_wf size opt w (proj1 Hsz)) eq_refl); [constructor|done|done]. }
  split; [done|]. intros v s' Hne Hget. simpl in Hget.
  destruct (buf (chan_of s)) as [|x rest] eqn:Hb; [done|].
  rewrite (pool_Get_stored _ _ _ Hb) in Hget. injection Hget as <- <-.
  simpl. by apply Forall_cons in Hall as [? _].
Qed.

End MoreResetting.

(** ** The tests, and the properties at their instances *)

Example Test_resetPool_passes : Test_resetPool = Ok (1, 1, 0, 64).
Proof. reflexivity. Qed.

Example TestPool_passes :
  ∃ s, TestPool true = Ok (100, 200, s) ∧
       len (chan_of s) = 0%Z ∧ wg_Wait (pool_wg (st_pool s)) = true ∧
       NoDup (chans_closed (world s)) ∧
       Forall (λ v, 1 ≤ v ≤ 200) (chans_closed (world s)).
Proof.
  eexists. split; [vm_compute; reflexivity|].
  split_and!; [by vm_compute..| |].
  - apply (bool_decide_unpack (NoDup _)). vm_compute. exact I.
  - apply (bool_decide_unpack (Forall _ _)). vm_compute. exact I.
Qed.

Lemma Buffer_Reset_pristine (v : nat) (h : heap) :
  buf_data (cell (Reset v h) v) = [].
Proof. simpl. by case_decide. Qed.

Lemma Buffer_Reset_keeps (v u : nat) :
  keeps (λ h, buf_data (cell h v) = []) (Reset u).
Proof. intros h Hh. simpl. by case_decide. Qed.

Lemma new_Buffer_keeps (v : nat) :
  keeps (λ h, buf_data (cell h v) = []) (λ h, (new_Buffer h).2).
Proof. intros h Hh. simpl. by case_decide. Qed.

Lemma C1_witness :
  ∃ P p, NewPool 2 TestPool_opt = Ok (P, p) ∧
    ∃ s, run P [EPut 7; EPut 8; EPut 9] (boot p (Chans 0 [])) = Ok ([], s) ∧
         buf (chan_of s) = [7; 8].
Proof.
  fresh_pool 2%Z TestPool_opt p Hnew.
  exists pool_methods, p. split; [exact Hnew|].
  destruct (C1_store_bounded 2 TestPool_opt _ _ (Chans 0 []) Hnew)
    as (_ & _ & Hputs).
  destruct (Hputs [7; 8; 9] [EPut 7; EPut 8; EPut 9] eq_refl)
    as (s & Hs & Hb & _).
  exists s. split; [exact Hs|exact Hb].
Defined.

Lemma C2_witness :
  ∃ P p s, NewPool 2 TestPool_opt = Ok (P, p) ∧
    run P [EPut 7] (boot p (Chans 0 [])) = Ok ([], s) ∧
    closed (chan_of s) = false ∧
    ∃ s', Get P s = (7, s').
Proof.
  fresh_pool 2%Z TestPool_opt p Hnew.
  assert (∃ s, run pool_methods [EPut 7] (boot p (Chans 0 [])) = Ok ([], s) ∧
               closed (chan_of s) = false ∧ buf (chan_of s) = [7])
    as (s & Hrun & Hc & Hb) by (eexists; split_and!; reflexivity).
  exists pool_methods, p, s. split_and!; try done.
  destruct (C2_Get 2 TestPool_opt _ _ _ _ _ _ Hnew Hrun Hc)
    as (v & s' & _ & Hget & Hcase).
  rewrite Hb in Hcase. destruct Hcase as [-> _]. by exists s'.
Defined.

Lemma C3_witness :
  ∃ P p s, NewPool 1 TestPool_opt = Ok (P, p) ∧
    run P [EPut 7] (boot p (Chans 0 [])) = Ok ([], s) ∧
    closed (chan_of s) = false ∧
    Put P 8 s = Ok (spawn 8 (set_wg 1%Z (log_discarded 8 s))).
Proof.
  fresh_pool 1%Z TestPool_opt p Hnew.
  assert (∃ s, run pool_methods [EPut 7] (boot p (Chans 0 [])) = Ok ([], s) ∧
               closed (chan_of s) = false ∧
               len (chan_of s) = 1%Z ∧ pool_wg (st_pool s) = 0%Z)
    as (s & Hrun & Hc & Hl & Hwg) by (eexists; split_and!; reflexivity).
  exists pool_methods, p, s. split_and!; try done.
  destruct (C3_Put 1 TestPool_opt _ _ _ _ _ _ 8 Hnew Hrun Hc)
    as (s' & Hput & Hcase).
  rewrite Hl, Hwg in Hcase. simpl in Hcase. by rewrite Hput, Hcase.
Defined.

Lemma C4_witness :
  ∃ P p s, NewPool 1 TestPool_opt = Ok (P, p) ∧
    run P [EPut 7; EPut 8] (boot p (Chans 0 [])) = Ok ([], s) ∧
    ∃ s1, Close P s = Ok s1 ∧ buf (chan_of s1) = [].
Proof.
  fresh_pool 1%Z TestPool_opt p Hnew.
  assert (∃ s, run pool_methods [EPut 7; EPut 8] (boot p (Chans 0 [])) =
               Ok ([], s))
    as (s & Hrun) by (eexists; reflexivity).
  exists pool_methods, p, s. split_and!; try done.
  destruct (C4_Close_Wait 1 TestPool_opt _ _ (Chans 0 []) [EPut 7; EPut 8]
              [] s Hnew)
    as (s1 & Hs1 & Hb1 & _); [by repeat constructor|exact Hrun|].
  by exists s1.
Defined.

Lemma C5_witness :
  ∃ P p, NewPool 1 TestPool_opt = Ok (P, p) ∧
    ∃ s, run P [EPut 7; EPut 8; EPut 9] (boot p (Chans 0 [])) = Ok ([], s) ∧
         destroyed s = [] ∧ goroutines s = [8; 9] ∧
         ∃ s', run P [EGo 0; EGo 0] s = Ok ([], s') ∧
               wg_Wait (pool_wg (st_pool s')) = true ∧
               destroyed s' = [8; 9] ∧
               world s' = Chans 0 [9; 8].
Proof.
  fresh_pool 1%Z TestPool_opt p Hnew.
  exists pool_methods, p. split; [exact Hnew|].
  destruct (C5_overflow 1 2 [7; 8; 9] TestPool_opt _ _ (Chans 0 []) Hnew eq_refl)
    as (_ & s & Hs & Hx & _ & Hg & s' & Hs' & Hwait & _ & Hx' & _ & Hw').
  exists s. split_and!; try done.
  exists s'. rewrite Hg in Hs'. by split_and!.
Defined.

Lemma C6_witness :
  ∃ P p s0 s1 s2 s3,
    NewResetterPool 10 Test_resetPool_opt = Ok (P, p) ∧
    run P [EGet; EGet; ECaller (update 1 (Buffer_Write [104; 105]))]
        (boot p empty_heap) = Ok ([1; 2], s0) ∧
    Put P 1 s0 = Ok s1 ∧
    run P [ECaller (update 2 (Buffer_Write [33])); EPut 2] s1 = Ok ([], s2) ∧
    Get P s2 = (1, s3) ∧
    Len 1 (world s0) = 2 ∧ Len 1 (world s3) = 0 ∧ Cap 1 (world s3) = 64.
Proof.
  set (p := MkPool (Chan [] 10 false) (NewFunc Test_resetPool_opt)
                   (CloseFunc Test_resetPool_opt) 0%Z).
  assert (NewResetterPool 10 Test_resetPool_opt =
          Ok (resetPool pool_methods, p)) as Hnew by reflexivity.
  set (tr := [ECaller (update 2 (Buffer_Write [33])); EPut 2]).
  assert (∃ s0 s1 s2 s3,
    run (resetPool pool_methods)
        [EGet; EGet; ECaller (update 1 (Buffer_Write [104; 105]))]
        (boot p empty_heap) = Ok ([1; 2], s0) ∧
    Put (resetPool pool_methods) 1 s0 = Ok s1 ∧
    run (resetPool pool_methods) tr s1 = Ok ([], s2) ∧
    Get (resetPool pool_methods) s2 = (1, s3) ∧
    Len 1 (world s0) = 2 ∧ Cap 1 (world s3) = 64)
    as (s0 & s1 & s2 & s3 & Hrun0 & Hput & Hrun & Hget & Hlen & Hcap)
    by (eexists _, _, _, _; split_and!; vm_compute; reflexivity).
  exists (resetPool pool_methods), p, s0, s1, s2, s3.
  split_and!; try done.
  destruct (C6_resetPool (λ v h, buf_data (cell h v)) [] Buffer_Reset_pristine
              10 Test_resetPool_opt _ _ empty_heap 1 Hnew)
    as (_ & _ & _ & _ & Hcontent).
  - intros f [= <-]. apply new_Buffer_keeps.
  - intros f u [=].
  - apply Buffer_Reset_keeps.
  - unfold Len. rewrite (Hcontent _ _ s0 s1 tr [] s2 s3 Hrun0 Hput); try done.
    repeat constructor. intros h Hh. exact Hh.
Defined.

Lemma C7_witness :
  ∃ P p s, NewPool 0 bare_opt = Ok (P, p) ∧
    run P [EPut 7; EGet] (boot p (Chans 0 [])) = Ok ([0], s) ∧
    Get P s = (0, s) ∧ is_Ok (exec P (EPut 8) s).
Proof.
  fresh_pool 0%Z bare_opt p Hnew.
  assert (∃ s, run pool_methods [EPut 7; EGet] (boot p (Chans 0 [])) =
               Ok ([0], s))
    as (s & Hrun) by (eexists; reflexivity).
  exists pool_methods, p, s. split_and!; try done.
  - by destruct (C7_total_until_Close 0 bare_opt _ _ _ _ _ _ Hnew Hrun)
      as (_ & _ & _ & _ & ->).
  - destruct (C7_total_until_Close 0 bare_opt _ _ _ _ _ _ Hnew Hrun)
      as (_ & _ & Hput & Hopen & _).
    apply Hput, Hopen. by repeat constructor.
Defined.

Lemma C7_counterexample :
  ∃ P p, NewPool 1 TestPool_opt = Ok (P, p) ∧
    run P [EClose; EPut 1] (boot p (Chans 0 [])) =
      Panic "send on closed channel" ∧
    run P [EClose; EClose] (boot p (Chans 0 [])) =
      Panic "close of closed channel" ∧
    ¬ is_Ok (run P [EClose; EPut 1] (boot p (Chans 0 []))).
Proof.
  eexists _, _. split_and!; [reflexivity..|]. by intros [? ?].
Qed.

Lemma C8_witness :
  ∃ P p vs s1 s2 s3 s4 s5 s6,
    NewPool 100 TestPool_opt = Ok (P, p) ∧
    run P (replicate 200 EGet) (boot p (Chans 0 [])) = Ok (vs, s1) ∧
    length vs = 200 ∧ made s1 = vs ∧
    run P (EPut <$> vs) s1 = Ok ([], s2) ∧
    run P (replicate 100 EGet) s2 = Ok (take 100 vs, s3) ∧
    (∃ s4' s5', Close P s3 = Ok s4' ∧
       run P (replicate (length (goroutines s4')) (EGo 0)) s4' = Ok ([], s5') ∧
       wg_Wait (pool_wg (st_pool s5')) = true ∧
       length (destroyed s5') = 100) ∧
    run P (EPut <$> take 100 vs) s3 = Ok ([], s4) ∧
    Close P s4 = Ok s5 ∧
    run P (replicate (length (goroutines s5)) (EGo 0)) s5 = Ok ([], s6) ∧
    wg_Wait (pool_wg (st_pool s6)) = true ∧
    destroyed s6 ≡ₚ vs ∧ length (destroyed s6) = 200.
Proof.
  fresh_pool 100%Z TestPool_opt p Hnew.
  destruct (C8_TestPool TestPool_opt _ _ (Chans 0 []) _ _ Hnew eq_refl eq_refl
              (replicate 200 EGet) (calls_replicate_get 200))
    as (vs & s1 & Hs1 & Hlen & Hm & Hputs).
  destruct (Hputs (EPut <$> vs) (calls_puts vs)) as (s2 & Hs2 & _ & _ & Hgets).
  destruct (Hgets (replicate 100 EGet) (calls_replicate_get 100))
    as (s3 & Hs3 & _ & _ & _ & Hclose & Hback).
  destruct Hclose as (s4' & Hs4' & _ & (s5' & Hs5' & Hw' & _ & Hn') & _).
  destruct (Hback (take 100 vs) (EPut <$> take 100 vs) (reflexivity _)
              (calls_puts _))
    as (s4 & s5 & Hs4 & _ & _ & _ & Hs5 & _ & _ & (s6 & Hs6 & Hw & Hp & Hn) & _).
  exists pool_methods, p, vs, s1, s2, s3, s4, s5, s6.
  split; [exact Hnew|]. split; [exact Hs1|]. split; [exact Hlen|].
  split; [exact Hm|]. split; [exact Hs2|]. split; [exact Hs3|].
  split.
  { exists s4', s5'. split; [exact Hs4'|]. split; [exact Hs5'|].
    split; [exact Hw'|exact Hn']. }
  split; [exact Hs4|]. split; [exact Hs5|]. split; [exact Hs6|].
  split; [exact Hw|]. split; [exact Hp|exact Hn].
Defined.

Lemma C8_counterexample :
  ∃ s, TestPool false = Ok (100, 100, s) ∧
       wg_Wait (pool_wg (st_pool s)) = true ∧
       length (destroyed s) = 100 ∧ length (destroyed s) ≠ 200.
Proof.
  eexists. split; [vm_compute; reflexivity|].
  split_and!; [by vm_compute..|]. vm_compute. lia.
Qed.

Lemma C9_witness :
  ∃ P p s, NewPool 1 TestPool_opt = Ok (P, p) ∧
    run P ([EPut 7] ++ EClose :: [EGo 0]) (boot p (Chans 0 [])) = Ok ([], s) ∧
    Get P s = (0, s).
Proof.
  fresh_pool 1%Z TestPool_opt p Hnew.
  assert (∃ s, run pool_methods ([EPut 7] ++ EClose :: [EGo 0])
                   (boot p (Chans 0 [])) = Ok ([], s))
    as (s & Hrun) by (eexists; reflexivity).
  exists pool_methods, p, s. split_and!; try done.
  by destruct (C9_Get_after_Close 1 TestPool_opt _ _ _ _ _ _ _ Hnew Hrun).
Defined.

Lemma C10_witness :
  ∃ P p s, NewPool 1 TestPool_opt = Ok (P, p) ∧
    run P ([EPut 7] ++ EClose :: [EGet]) (boot p (Chans 0 [])) = Ok ([0], s) ∧
    Put P 7 s = Panic "send on closed channel" ∧
    Close P s = Panic "close of closed channel".
Proof.
  fresh_pool 1%Z TestPool_opt p Hnew.
  assert (∃ s, run pool_methods ([EPut 7] ++ EClose :: [EGet])
                   (boot p (Chans 0 [])) = Ok ([0], s))
    as (s & Hrun) by (eexists; reflexivity).
  exists pool_methods, p, s.
  destruct (C10_panics_after_Close 1 TestPool_opt _ _ _ _ _ _ _ Hnew Hrun)
    as (Hput & Hclose & _).
  by split_and!.
Defined.

Lemma Put_Get_roundtrip_witness :
  ∃ P p s1, NewPool 2 TestPool_opt = Ok (P, p) ∧
    Put P 7 (boot p (Chans 0 [])) = Ok s1 ∧
    Get P s1 = (7, boot p (Chans 0 [])).
Proof.
  fresh_pool 2%Z TestPool_opt p Hnew.
  destruct (Put_Get_roundtrip 2 TestPool_opt _ _ (Chans 0 []) [] [] _ 7
              Hnew eq_refl eq_refl eq_refl)
    as (s1 & x & s2 & Hput & Hget & _ & _ & _ & _ & Hsame).
  destruct (Hsame eq_refl) as [-> ->].
  by exists pool_methods, p, s1.
Defined.

Lemma zero_capacity_witness :
  ∃ P p s, NewPool 0 TestPool_opt = Ok (P, p) ∧
    run P [EPut 7] (boot p (Chans 0 [])) = Ok ([], s) ∧
    buf (chan_of s) = [] ∧ discarded s = [7] ∧ Get P s = maybeNew s.
Proof.
  fresh_pool 0%Z TestPool_opt p Hnew.
  assert (∃ s, run pool_methods [EPut 7] (boot p (Chans 0 [])) = Ok ([], s) ∧
               discarded s = [7] ∧ closed (chan_of s) = false)
    as (s & Hrun & Hd & Hc) by (eexists; split_and!; reflexivity).
  exists pool_methods, p, s.
  destruct (zero_capacity TestPool_opt _ _ _ _ _ _ 7 Hnew Hrun) as (Hb & Hopen).
  destruct (Hopen Hc) as (Hget & _). by split_and!.
Defined.

Lemma accounting_witness :
  ∃ P p s, NewPool 1 TestPool_opt = Ok (P, p) ∧
    run P [EPut 7; EPut 8; EPut 9; EGo 1] (boot p (Chans 0 [])) = Ok ([], s) ∧
    discarded s = [8; 9] ∧ destroyed s ++ goroutines s ≡ₚ [8; 9].
Proof.
  fresh_pool 1%Z TestPool_opt p Hnew.
  assert (∃ s, run pool_methods [EPut 7; EPut 8; EPut 9; EGo 1]
                   (boot p (Chans 0 [])) = Ok ([], s) ∧ discarded s = [8; 9])
    as (s & Hrun & Hd) by (eexists; split_and!; reflexivity).
  exists pool_methods, p, s.
  destruct (accounting 1 TestPool_opt _ _ _ _ _ _ Hnew Hrun) as (_ & Hacct & _).
  simpl in Hacct. rewrite Hd in Hacct. by split_and!.
Defined.

Lemma conservation_witness :
  ∃ P p s, NewPool 1 TestPool_opt = Ok (P, p) ∧
    run P [EGet; EPut 7; EPut 8; EGet] (boot p (Chans 0 [])) = Ok ([1; 7], s) ∧
    ∃ taken, [7; 8] ≡ₚ buf (chan_of s) ++ discarded s ++ taken ∧
             [1; 7] ≡ₚ taken ++ made s.
Proof.
  fresh_pool 1%Z TestPool_opt p Hnew.
  assert (∃ s, run pool_methods [EGet; EPut 7; EPut 8; EGet]
                   (boot p (Chans 0 [])) = Ok ([1; 7], s))
    as (s & Hrun) by (eexists; reflexivity).
  exists pool_methods, p, s. split_and!; try done.
  destruct (conservation 1 TestPool_opt _ _ _ _ _ _ Hnew Hrun)
    as (taken & zs & Hp & Ho & _ & Hzs).
  rewrite Hzs, (right_id_L [] (++)) in Ho;
    [|by eexists|by repeat constructor].
  by exists taken.
Defined.

Lemma Close_effect_witness :
  ∃ P p s s1, NewPool 2 TestPool_opt = Ok (P, p) ∧
    run P [EPut 7; EPut 8] (boot p (Chans 0 [])) = Ok ([], s) ∧
    Close P s = Ok s1 ∧ goroutines s1 = [7; 8] ∧
    pool_wg (st_pool s1) = 2%Z ∧ destroyed s1 = [].
Proof.
  fresh_pool 2%Z TestPool_opt p Hnew.
  assert (∃ s, run pool_methods [EPut 7; EPut 8] (boot p (Chans 0 [])) =
               Ok ([], s) ∧ closed (chan_of s) = false ∧
               buf (chan_of s) = [7; 8] ∧ goroutines s = [] ∧
               pool_wg (st_pool s) = 0%Z ∧ destroyed s = [])
    as (s & Hrun & Hc & Hb & Hg & Hwg & Hx)
    by (eexists; split_and!; reflexivity).
  destruct (Close_effect 2 TestPool_opt _ _ _ _ _ _ Hnew Hrun Hc)
    as (s1 & Hs1 & _ & _ & Hg1 & Hwg1 & _ & _ & Hx1).
  exists pool_methods, p, s, s1. simpl in Hg1, Hwg1. unfold len in Hwg1.
  rewrite Hb, Hg in Hg1. rewrite Hb, Hwg in Hwg1. rewrite Hx in Hx1.
  by split_and!.
Defined.

Lemma world_frame_witness :
  ∃ P p s, NewPool 1 bare_opt = Ok (P, p) ∧
    run P [EPut 7; EPut 8; EGet; EGet; EClose; EGet] (boot p (Chans 3 [5])) =
      Ok ([7; 0; 0], s) ∧
    world s = Chans 3 [5].
Proof.
  fresh_pool 1%Z bare_opt p Hnew.
  assert (∃ s, run pool_methods [EPut 7; EPut 8; EGet; EGet; EClose; EGet]
                   (boot p (Chans 3 [5])) = Ok ([7; 0; 0], s))
    as (s & Hrun) by (eexists; reflexivity).
  exists pool_methods, p, s. split_and!; try done.
  apply (world_frame (λ w, w = Chans 3 [5]) 1 bare_opt _ _ _ _ _ _ Hnew Hrun);
    try done.
  by repeat constructor.
Defined.

Lemma Close_race_witness :
  ∃ P p s0 s2, NewPool 2 TestPool_opt = Ok (P, p) ∧
    run P [EPut 7; EPut 8] (boot p (Chans 0 [])) = Ok ([], s0) ∧
    run_race P [Some EGet; None; None; Some EGet] (closing s0) =
      Ok ([7; 0], s2) ∧
    discarded s2 = [8] ∧ made s2 = [] ∧
    destroyed s2 ++ goroutines s2 ≡ₚ [8].
Proof.
  fresh_pool 2%Z TestPool_opt p Hnew.
  assert (∃ s0, run pool_methods [EPut 7; EPut 8] (boot p (Chans 0 [])) =
                Ok ([], s0) ∧ closed (chan_of s0) = false ∧ made s0 = [] ∧
          ∃ s2, run_race pool_methods [Some EGet; None; None; Some EGet]
                         (closing s0) = Ok ([7; 0], s2) ∧ discarded s2 = [8])
    as (s0 & Hrun & Hc & Hm0 & s2 & Hrace & Hd)
    by (eexists; split_and!; try reflexivity; eexists; split; reflexivity).
  exists pool_methods, p, s0, s2.
  destruct (Close_race 2 TestPool_opt _ _ _ _ _ _ _ _ _ Hnew Hrun Hc Hrace)
    as (_ & taken & zs & d & _ & _ & _ & _ & Hm & _ & Hacct).
  simpl in Hacct. rewrite Hd in Hacct. rewrite Hm0 in Hm. by split_and!.
Defined.

Lemma resetPool_inherits_witness :
  ∃ P p s s', NewResetterPool 1 Test_resetPool_opt = Ok (P, p) ∧
    run P [EGet; EGet; ECaller (update 1 (Buffer_Write [104; 105]));
           ECaller (update 2 (Buffer_Write [33])); EPut 1]
        (boot p empty_heap) = Ok ([1; 2], s) ∧
    Put P 2 s = Ok s' ∧
    Len 2 (world s) = 1 ∧ Len 2 (world s') = 0 ∧
    buf (chan_of s') = [1] ∧ discarded s' = [2].
Proof.
  set (p := MkPool (Chan [] 1 false) (NewFunc Test_resetPool_opt)
                   (CloseFunc Test_resetPool_opt) 0%Z).
  assert (NewResetterPool 1 Test_resetPool_opt =
          Ok (resetPool pool_methods, p)) as Hnew by reflexivity.
  assert (∃ s s',
            run (resetPool pool_methods)
                [EGet; EGet; ECaller (update 1 (Buffer_Write [104; 105]));
                 ECaller (update 2 (Buffer_Write [33])); EPut 1]
                (boot p empty_heap) = Ok ([1; 2], s) ∧
            Put (resetPool pool_methods) 2 s = Ok s' ∧
            Len 2 (world s) = 1 ∧
            buf (chan_of s') = [1] ∧ discarded s' = [2])
    as (s & s' & Hrun & Hput & Hl & Hb & Hd)
    by (eexists _, _; split_and!; vm_compute; reflexivity).
  exists (resetPool pool_methods), p, s, s'.
  destruct (resetPool_inherits 1 Test_resetPool_opt _ _ _ _ _ _ Hnew Hrun)
    as (_ & _ & _ & Hret & _).
  destruct (Hret 2 s' Hput) as (_ & Hw & _).
  split_and!; try done.
  unfold Len. by rewrite Hw, Buffer_Reset_pristine.
Defined.

Lemma stored_pristine_witness :
  ∃ P p s, NewResetterPool 10 Test_resetPool_opt = Ok (P, p) ∧
    run P [EGet; EGet; ECaller (update 1 (Buffer_Write [104; 105])); EPut 1;
           ECaller (update 2 (Buffer_Write [33])); EPut 2]
        (boot p empty_heap) = Ok ([1; 2], s) ∧
    buf (chan_of s) = [1; 2] ∧
    Forall (λ v, Len v (world s) = 0) (buf (chan_of s)).
Proof.
  set (p := MkPool (Chan [] 10 false) (NewFunc Test_resetPool_opt)
                   (CloseFunc Test_resetPool_opt) 0%Z).
  assert (NewResetterPool 10 Test_resetPool_opt =
          Ok (resetPool pool_methods, p)) as Hnew by reflexivity.
  set (tr := [EGet; EGet; ECaller (update 1 (Buffer_Write [104; 105])); EPut 1;
              ECaller (update 2 (Buffer_Write [33])); EPut 2]).
  assert (∃ s, run (resetPool pool_methods) tr (boot p empty_heap) =
               Ok ([1; 2], s) ∧ buf (chan_of s) = [1; 2])
    as (s & Hrun & Hb) by (eexists; split; vm_compute; reflexivity).
  exists (resetPool pool_methods), p, s. split_and!; try done.
  destruct (stored_pristine (λ v h, buf_data (cell h v)) [] 10
              Test_resetPool_opt (resetPool pool_methods) p empty_heap tr
              [1; 2] s Buffer_Reset_pristine) as [Hall _]; try done.
  - intros u v. apply Buffer_Reset_keeps.
  - vm_compute. split_and!; try done; intros v Hv;
      repeat match goal with
             | Hin : list_elem_of _ _ |- _ => inversion Hin; clear Hin; subst
             | Hin : _ ∈ _ |- _ => inversion Hin; clear Hin; subst
             end; done.
  - eapply Forall_impl; [exact Hall|]. intros v Hv. unfold Len. by rewrite Hv.
Defined.

End gpool.
